(** * Mnemonic-Trainer: the round/session state machine of [GameService]

    A shallow embedding of [src/app/services/game.service.ts].  The
    service object is a record of its signals and private fields, every
    method is a function from the state before the call to the state
    after it, and the draws of [Math.random] are an explicit argument of
    the methods that reach [#generateSequence]. *)

From stdpp Require Import base decidable option numbers list.
From Stdlib Require Import QArith.

Local Open Scope Z_scope.

(** ** Data model *)

(** The string union of the [gameState] signal. *)
Module Phase.
Inductive t : Set := idle | sequence | input | checking | over.

#[global] Instance eq_dec : EqDecision t.
Proof. solve_decision. Defined.
End Phase.

(** [Tile] of [models/tile.model]: the object literal that
    [initializeGrid] pushes fixes its six fields. *)
Module Tile.
Record t : Set := mk {
  id : Z;
  lit : bool;
  selectedByPlayer : bool;
  isCorrectAndClicked : bool;
  isCorrectAndNotClicked : bool;
  isIncorrectAndClicked : bool
}.

#[global] Instance eq_dec : EqDecision t.
Proof. solve_decision. Defined.

(** [{ id: i, lit: false, selectedByPlayer: false, ... }] *)
Definition fresh (i : Z) : t := mk i false false false false false.

(** [{ ...t, lit: false, selectedByPlayer: false, isCorrectAndClicked:
    false, isCorrectAndNotClicked: false, isIncorrectAndClicked: false }] *)
Definition resetFlags (x : t) : t := mk (id x) false false false false false.

(** [t.id === tileId ? { ...t, selectedByPlayer: true } : t] *)
Definition select (tileId : Z) (x : t) : t :=
  if bool_decide (id x = tileId)
  then mk (id x) (lit x) true (isCorrectAndClicked x)
          (isCorrectAndNotClicked x) (isIncorrectAndClicked x)
  else x.

(** The body of the [tiles.map] of the failure branch of [#checkRound]. *)
Definition markOutcome (sequence playerInput : list Z) (x : t) : t :=
  let isInSequence := bool_decide (id x ∈ sequence) in
  let isClickedByPlayer := bool_decide (id x ∈ playerInput) in
  mk (id x) (lit x) (selectedByPlayer x)
     (isInSequence && isClickedByPlayer)
     (isInSequence && negb isClickedByPlayer)
     (negb isInSequence && isClickedByPlayer).
End Tile.

(** The fields of the service; [#sequence], [#playerInput] and
    [#isInCombo] lose their [#]. *)
Record GameService : Set := mkGameService {
  currentLevel : Z;
  score : Z;
  gameState : Phase.t;
  gridSize : Z;
  tiles : list Tile.t;
  numTilesToLight : Z;
  sequence : list Z;
  playerInput : list Z;
  isInCombo : bool
}.

(** Signal [set]/[update] and field assignment, one field at a time. *)
Definition set_currentLevel (v : Z) (s : GameService) : GameService :=
  mkGameService v (score s) (gameState s) (gridSize s) (tiles s)
    (numTilesToLight s) (sequence s) (playerInput s) (isInCombo s).
Definition set_score (v : Z) (s : GameService) : GameService :=
  mkGameService (currentLevel s) v (gameState s) (gridSize s) (tiles s)
    (numTilesToLight s) (sequence s) (playerInput s) (isInCombo s).
Definition set_gameState (v : Phase.t) (s : GameService) : GameService :=
  mkGameService (currentLevel s) (score s) v (gridSize s) (tiles s)
    (numTilesToLight s) (sequence s) (playerInput s) (isInCombo s).
Definition set_gridSize (v : Z) (s : GameService) : GameService :=
  mkGameService (currentLevel s) (score s) (gameState s) v (tiles s)
    (numTilesToLight s) (sequence s) (playerInput s) (isInCombo s).
Definition set_tiles (v : list Tile.t) (s : GameService) : GameService :=
  mkGameService (currentLevel s) (score s) (gameState s) (gridSize s) v
    (numTilesToLight s) (sequence s) (playerInput s) (isInCombo s).
Definition set_numTilesToLight (v : Z) (s : GameService) : GameService :=
  mkGameService (currentLevel s) (score s) (gameState s) (gridSize s) (tiles s)
    v (sequence s) (playerInput s) (isInCombo s).
Definition set_sequence (v : list Z) (s : GameService) : GameService :=
  mkGameService (currentLevel s) (score s) (gameState s) (gridSize s) (tiles s)
    (numTilesToLight s) v (playerInput s) (isInCombo s).
Definition set_playerInput (v : list Z) (s : GameService) : GameService :=
  mkGameService (currentLevel s) (score s) (gameState s) (gridSize s) (tiles s)
    (numTilesToLight s) (sequence s) v (isInCombo s).
Definition set_isInCombo (v : bool) (s : GameService) : GameService :=
  mkGameService (currentLevel s) (score s) (gameState s) (gridSize s) (tiles s)
    (numTilesToLight s) (sequence s) (playerInput s) v.

(** ** Randomness *)

(** The draws of [Math.random] made by one call, in order: draw number
    [k] is [rand k].  [Math.floor(Math.random() * len)] is some index
    below [len]; a draw is read as that index modulo [len], so every
    index below [len] is the outcome of some draw and no other outcome
    exists. *)
Definition Random : Set := nat → nat.

Definition randomIndex (rand : Random) (k len : nat) : nat :=
  (rand k `mod` len)%nat.

(** ** Methods *)

(** [Array.prototype.includes] on an array of ids. *)
Definition includes (l : list Z) (x : Z) : bool := bool_decide (x ∈ l).

(** The fields as the field initialisers leave them, before the
    constructor body runs. *)
Definition fieldDefaults : GameService :=
  mkGameService 1 0 Phase.idle 3 [] 3 [] [] false.

(** The [for] loop of [initializeGrid] pushes one fresh tile for each
    [i] with [0 <= i < size * size], in increasing order. *)
Definition initializeGrid (s : GameService) : GameService :=
  let size := gridSize s in
  let newTiles := Tile.fresh <$> seqZ 0 (size * size) in
  let s := set_tiles newTiles s in
  set_playerInput [] s.

(** [constructor() { this.initializeGrid(); }] *)
Definition constructor : GameService := initializeGrid fieldDefaults.

(** The loop of [#generateSequence]: [fuel] iterations are left, [k]
    draws were made, [availableTiles] is what [splice] has left and
    [acc] is [#sequence] so far.  [splice(randomIndex, 1)[0]] removes
    the element at the index and yields it. *)
Fixpoint generateLoop (fuel : nat) (rand : Random) (k : nat)
    (availableTiles acc : list Z) : list Z :=
  match fuel with
  | O => acc
  | S fuel' =>
      if bool_decide (length availableTiles = 0%nat) then acc
      else
        let i := randomIndex rand k (length availableTiles) in
        match availableTiles !! i with
        | Some x => generateLoop fuel' rand (S k) (delete i availableTiles) (acc ++ [x])
        | None => acc (* not reached: [i] is below the length *)
        end
  end.

Definition generateSequence (rand : Random) (s : GameService) : GameService :=
  let availableTiles := Tile.id <$> tiles s in
  let s := set_sequence [] s in
  let numToLight := numTilesToLight s in
  set_sequence (generateLoop (Z.to_nat numToLight) rand 0 availableTiles (sequence s)) s.

Definition nextRound (rand : Random) (s : GameService) : GameService :=
  let s := set_playerInput [] s in
  let s := set_isInCombo true s in
  let s := set_tiles (Tile.resetFlags <$> tiles s) s in
  let s := generateSequence rand s in
  set_gameState Phase.sequence s.

Definition startGame (rand : Random) (s : GameService) : GameService :=
  let s := set_currentLevel 1 s in
  let s := set_score 0 s in
  let s := set_isInCombo false s in
  let s := set_numTilesToLight 3 s in
  let s := set_gridSize 3 s in
  let s := initializeGrid s in
  let s := nextRound rand s in
  set_gameState Phase.sequence s.

Definition resetGame (s : GameService) : GameService :=
  let s := set_currentLevel 1 s in
  let s := set_score 0 s in
  let s := set_isInCombo false s in
  let s := set_numTilesToLight 3 s in
  let s := set_gridSize 3 s in
  set_gameState Phase.idle s.

(** [this.numTilesToLight() > currentGridCapacity / 2]: the division is
    the one of JavaScript numbers, so it is taken in the rationals
    ([9 / 2] is [4.5]). *)
Definition exceedsHalf (n currentGridCapacity : Z) : bool :=
  negb (Qle_bool (inject_Z n) (inject_Z currentGridCapacity / inject_Z 2)).

(** The conjunction [correctSelections] of [#checkRound]. *)
Definition correctSelections (s : GameService) : bool :=
  forallb (includes (sequence s)) (playerInput s)
  && bool_decide (length (playerInput s) = length (sequence s))
  && forallb (includes (playerInput s)) (sequence s).

Definition checkRound (rand : Random) (s : GameService) : GameService :=
  let s := set_gameState Phase.checking s in
  if correctSelections s then
    let s := set_currentLevel (currentLevel s + 1) s in
    let s := set_numTilesToLight (numTilesToLight s + 1) s in
    let currentGridCapacity := gridSize s * gridSize s in
    let s :=
      if exceedsHalf (numTilesToLight s) currentGridCapacity
      then set_gridSize (gridSize s + 1) s
      else s in
    let s := initializeGrid s in
    nextRound rand s
  else
    let s := set_isInCombo false s in
    let s := set_tiles (Tile.markOutcome (sequence s) (playerInput s) <$> tiles s) s in
    set_gameState Phase.over s.

(** Lines 88-109 of the handler: the click is recorded, the tile is
    marked and the click is scored.  [#sequence[currentIndex]] is
    [undefined] out of range, which is [===] to no id. *)
Definition recordClick (tileId : Z) (s : GameService) : GameService :=
  let s := set_playerInput (playerInput s ++ [tileId]) s in
  let s := set_tiles (Tile.select tileId <$> tiles s) s in
  let currentIndex := (length (playerInput s) - 1)%nat in
  let isInSequence := bool_decide (sequence s !! currentIndex = Some tileId) in
  let isCorrectClick := bool_decide (tileId ∈ sequence s) in
  if isCorrectClick then
    if isInCombo s && isInSequence
    then set_score (score s + 2) s
    else
      let s := set_isInCombo false s in
      set_score (score s + 1) s
  else set_isInCombo false s.

Definition handlePlayerTileClick (rand : Random) (tileId : Z)
    (s : GameService) : GameService :=
  if bool_decide (gameState s ≠ Phase.input) then s
  else if includes (playerInput s) tileId then s
  else
    let s := recordClick tileId s in
    if bool_decide (length (playerInput s) = length (sequence s))
    then checkRound rand s
    else s.

Definition getSequence (s : GameService) : list Z := sequence s.

(** ** Commands and reachable states *)

(** Modelled from the spec: the trigger that ends the reveal of the
    sequence is owned by the rendering layer, which is not part of the
    service; the spec gives it as the flip of the phase from [sequence]
    to [input]. *)
Definition beginInput (s : GameService) : GameService :=
  if bool_decide (gameState s = Phase.sequence)
  then set_gameState Phase.input s
  else s.

(** The commands of the interface of the service and the flip of the
    phase, each with the draws it consumes. *)
Inductive Command : Set :=
  | StartGame (rand : Random)
  | ResetGame
  | BeginInput
  | Click (rand : Random) (tileId : Z).

Definition exec (c : Command) (s : GameService) : GameService :=
  match c with
  | StartGame rand => startGame rand s
  | ResetGame => resetGame s
  | BeginInput => beginInput s
  | Click rand tileId => handlePlayerTileClick rand tileId s
  end.

(** Commands run left to right from a given state. *)
Definition run (cs : list Command) (s : GameService) : GameService :=
  foldl (λ s c, exec c s) s cs.

(** The states of a service that was constructed and then driven by
    commands only. *)
Inductive reachable : GameService → Prop :=
  | reachable_constructor : reachable constructor
  | reachable_exec c s : reachable s → reachable (exec c s).

(** ** Predicates of the statements *)

(** Equal as sets: same length, same elements, in any order. *)
Definition equalAsSets (l1 l2 : list Z) : Prop :=
  length l1 = length l2 ∧ ∀ x, x ∈ l1 ↔ x ∈ l2.

(** All five flags of a tile are false. *)
Definition allFlagsFalse (x : Tile.t) : Prop :=
  Tile.lit x = false ∧ Tile.selectedByPlayer x = false ∧
  Tile.isCorrectAndClicked x = false ∧ Tile.isCorrectAndNotClicked x = false ∧
  Tile.isIncorrectAndClicked x = false.

(** The grid invariant of the data model. *)
Definition gridInvariant (s : GameService) : Prop :=
  Z.of_nat (length (tiles s)) = gridSize s * gridSize s.

(** The session fields of the data model. *)
Definition sessionFields (s : GameService) : Z * Z * Z * Z :=
  (currentLevel s, score s, gridSize s, numTilesToLight s).

(** The click is accepted and completes a round that succeeds. *)
Definition roundSucceeds (tileId : Z) (s : GameService) : Prop :=
  gameState s = Phase.input
  ∧ (tileId ∉ playerInput s)
  ∧ equalAsSets (playerInput s ++ [tileId]) (sequence s).

(** No tile is lit. *)
Definition noneLit (s : GameService) : Prop :=
  Forall (λ x, Tile.lit x = false) (tiles s).

(** Every id of the sequence is the id of a tile. *)
Definition sequenceOnGrid (s : GameService) : Prop :=
  ∀ x, x ∈ sequence s → x ∈ Tile.id <$> tiles s.

(** The three ways in which the click handler returns: at one of its
    two early returns, after recording a click that leaves the round
    open, or through round evaluation. *)
Inductive ClickOutcome (rand : Random) (tileId : Z) (s : GameService) :
    GameService → Prop :=
  | click_ignored :
      gameState s ≠ Phase.input ∨ tileId ∈ playerInput s →
      ClickOutcome rand tileId s s
  | click_recorded :
      gameState s = Phase.input →
      tileId ∉ playerInput s →
      length (playerInput s ++ [tileId]) ≠ length (sequence s) →
      ClickOutcome rand tileId s (recordClick tileId s)
  | click_evaluated :
      gameState s = Phase.input →
      tileId ∉ playerInput s →
      length (playerInput s ++ [tileId]) = length (sequence s) →
      ClickOutcome rand tileId s (checkRound rand (recordClick tileId s)).

(** ** Concrete draws and runs *)

(** The draws that always pick the first tile that is left. *)
Definition firstLeft : Random := λ _, 0%nat.

(** Draws that make [[2; 5; 8]] out of the ids [0 .. 8]. *)
Definition draws258 : Random :=
  λ k, match k with O => 2%nat | S O => 4%nat | _ => 6%nat end.

(** A game in which the first round is about to be answered. *)
Definition firstRound (rand : Random) : GameService :=
  run [StartGame rand; BeginInput] constructor.

(** Two rounds are won, which takes the grid to size 4. *)
Definition winTwice : list Command :=
  [StartGame firstLeft; BeginInput;
   Click firstLeft 0; Click firstLeft 1; Click firstLeft 2; BeginInput;
   Click firstLeft 0; Click firstLeft 1; Click firstLeft 2; Click firstLeft 3].

(** ... and then the game is reset. *)
Definition winTwiceThenReset : list Command := winTwice ++ [ResetGame].

(** ** Predicates of the further properties *)

(** The state in which a round starts on a rebuilt grid: what
    [initializeGrid] followed by [nextRound] leaves when the session
    fields are [level], [sc], [g] and [n]. *)
Definition freshRound (rand : Random) (level sc g n : Z) : GameService :=
  mkGameService level sc Phase.sequence g (Tile.fresh <$> seqZ 0 (g * g)) n
    (generateLoop (Z.to_nat n) rand 0 (seqZ 0 (g * g)) []) [] true.

(** The bounds of the session fields. *)
Definition sessionInv (s : GameService) : Prop :=
  1 ≤ currentLevel s
  ∧ 0 ≤ score s
  ∧ 3 ≤ gridSize s
  ∧ numTilesToLight s = currentLevel s + 2
  ∧ 2 * numTilesToLight s ≤ gridSize s * gridSize s.

(** None of the three outcome flags of a tile is set. *)
Definition noOutcome (x : Tile.t) : Prop :=
  Tile.isCorrectAndClicked x = false
  ∧ Tile.isCorrectAndNotClicked x = false
  ∧ Tile.isIncorrectAndClicked x = false.

(** The three outcome flags of a tile are the membership tests of its
    id in the two arrays. *)
Definition showsOutcome (sq pi : list Z) (x : Tile.t) : Prop :=
  Tile.isCorrectAndClicked x = includes sq (Tile.id x) && includes pi (Tile.id x)
  ∧ Tile.isCorrectAndNotClicked x
    = includes sq (Tile.id x) && negb (includes pi (Tile.id x))
  ∧ Tile.isIncorrectAndClicked x
    = negb (includes sq (Tile.id x)) && includes pi (Tile.id x).

(** The shape of the board and of the sequence. *)
Definition boardInv (s : GameService) : Prop :=
  Tile.id <$> tiles s = seqZ 0 (Z.of_nat (length (tiles s)))
  ∧ (9 ≤ length (tiles s))%nat
  ∧ gameState s ≠ Phase.checking
  ∧ (gameState s ≠ Phase.idle →
       gridInvariant s ∧ Z.of_nat (length (sequence s)) = numTilesToLight s)
  ∧ NoDup (sequence s)
  ∧ (∀ x, x ∈ tiles s → Tile.selectedByPlayer x = true ↔ Tile.id x ∈ playerInput s)
  ∧ (gameState s = Phase.sequence ∨ gameState s = Phase.input →
       Forall noOutcome (tiles s)).

(** The input of the player and the combo, phase by phase. *)
Definition roundInv (s : GameService) : Prop :=
  NoDup (playerInput s)
  ∧ (length (playerInput s) ≤ length (sequence s))%nat
  ∧ (gameState s = Phase.sequence → playerInput s = [] ∧ isInCombo s = true)
  ∧ (gameState s = Phase.input →
       (length (playerInput s) < length (sequence s))%nat
       ∧ (isInCombo s = true ↔ playerInput s `prefix_of` sequence s))
  ∧ (gameState s = Phase.over →
       length (playerInput s) = length (sequence s)
       ∧ ¬ equalAsSets (playerInput s) (sequence s)
       ∧ isInCombo s = false
       ∧ Forall (showsOutcome (sequence s) (playerInput s)) (tiles s)).

(** A command that the rendering layer issues during a game: a click or
    the flip of the phase. *)
Definition isClickOrFlip (c : Command) : Prop :=
  match c with
  | Click _ _ | BeginInput => True
  | StartGame _ | ResetGame => False
  end.

(** The clicks on the given ids, in order, each with the same draws. *)
Definition clicks (rand : Random) (ids : list Z) : list Command :=
  Click rand <$> ids.

(** ** Tiles under the four maps of the service *)

Section TileMaps.
Context (tileId : Z) (sq pi : list Z).
Implicit Types (x : Tile.t) (ts : list Tile.t).

Lemma ids_fresh (l : list Z) : Tile.id <$> (Tile.fresh <$> l) = l.
Proof. induction l as [|i l IH]; [done|]. cbn. by f_equal. Qed.

Lemma ids_resetFlags ts : Tile.id <$> (Tile.resetFlags <$> ts) = Tile.id <$> ts.
Proof. rewrite <- list_fmap_compose. by apply list_fmap_ext. Qed.

Lemma id_select x : Tile.id (Tile.select tileId x) = Tile.id x.
Proof. unfold Tile.select. by case_bool_decide. Qed.

Lemma lit_select x : Tile.lit (Tile.select tileId x) = Tile.lit x.
Proof. unfold Tile.select. by case_bool_decide. Qed.

Lemma ids_select ts : Tile.id <$> (Tile.select tileId <$> ts) = Tile.id <$> ts.
Proof.
  rewrite <- list_fmap_compose. apply list_fmap_ext. intros i x _. apply id_select.
Qed.

Lemma ids_markOutcome ts : Tile.id <$> (Tile.markOutcome sq pi <$> ts) = Tile.id <$> ts.
Proof. rewrite <- list_fmap_compose. by apply list_fmap_ext. Qed.

Lemma selected_markOutcome ts :
  Tile.selectedByPlayer <$> (Tile.markOutcome sq pi <$> ts)
  = Tile.selectedByPlayer <$> ts.
Proof. rewrite <- list_fmap_compose. by apply list_fmap_ext. Qed.

Lemma lit_markOutcome ts :
  Tile.lit <$> (Tile.markOutcome sq pi <$> ts) = Tile.lit <$> ts.
Proof. rewrite <- list_fmap_compose. by apply list_fmap_ext. Qed.

Lemma resetFlags_fresh (l : list Z) :
  Tile.resetFlags <$> (Tile.fresh <$> l) = Tile.fresh <$> l.
Proof. rewrite <- list_fmap_compose. by apply list_fmap_ext. Qed.

(** No tile has the id: the map of the click handler changes nothing. *)
Lemma select_off_grid ts : tileId ∉ Tile.id <$> ts → Tile.select tileId <$> ts = ts.
Proof.
  induction ts as [|x ts IH]; [done|]. cbn. intros Hout.
  apply not_elem_of_cons in Hout as [Hne Hout]. f_equal; [|by apply IH].
  unfold Tile.select. by rewrite bool_decide_false.
Qed.
End TileMaps.

(** ** Grid initialization *)

Lemma tiles_initializeGrid s :
  tiles (initializeGrid s) = Tile.fresh <$> seqZ 0 (gridSize s * gridSize s).
Proof. reflexivity. Qed.

(** C7. For every grid size [g], [initializeGrid] on a service whose
    [gridSize] is [g] leaves exactly [g * g] tiles; the tile at index
    [i] is the fresh tile of id [i], so the ids are [0 .. g*g-1] in
    order and pairwise distinct, all five flags of every tile are false,
    and [#playerInput] is empty. *)
Theorem initializeGrid_spec (g : Z) (s : GameService) :
  let s' := initializeGrid (set_gridSize g s) in
  Z.of_nat (length (tiles s')) = g * g
  ∧ Tile.id <$> tiles s' = seqZ 0 (g * g)
  ∧ (∀ i, 0 ≤ i < g * g → tiles s' !! Z.to_nat i = Some (Tile.fresh i))
  ∧ (∀ i x, tiles s' !! i = Some x → Tile.id x = Z.of_nat i ∧ Z.of_nat i < g * g)
  ∧ NoDup (Tile.id <$> tiles s')
  ∧ Forall allFlagsFalse (tiles s')
  ∧ playerInput s' = [].
Proof.
  intros s'. subst s'. rewrite tiles_initializeGrid. cbn [gridSize set_gridSize].
  assert (0 ≤ g * g) as Hsq by nia.
  split_and!.
  - rewrite length_fmap, length_seqZ. lia.
  - apply ids_fresh.
  - intros i Hi. rewrite list_lookup_fmap, lookup_seqZ_lt by lia.
    cbn. do 2 f_equal. lia.
  - intros i x. rewrite list_lookup_fmap.
    destruct (seqZ 0 (g * g) !! i) as [j|] eqn:Hj; [|done].
    apply lookup_seqZ in Hj as [-> Hlt]. intros [= <-]. cbn. lia.
  - rewrite ids_fresh. apply NoDup_seqZ.
  - apply Forall_fmap, Forall_forall. intros i _. by repeat split.
  - reflexivity.
Qed.

Example initializeGrid_2 :
  tiles (initializeGrid (set_gridSize 2 fieldDefaults))
  = [Tile.fresh 0; Tile.fresh 1; Tile.fresh 2; Tile.fresh 3].
Proof. reflexivity. Qed.

(** ** Sequence generation *)

Lemma randomIndex_lt rand k len : (0 < len)%nat → (randomIndex rand k len < len)%nat.
Proof. intros H. unfold randomIndex. apply Nat.mod_upper_bound. lia. Qed.

(** The loop appends to [acc] a list that is as long as the smaller of
    the iteration count and the number of available ids, and that is
    made of available ids, none taken more often than it is available. *)
Lemma generateLoop_spec fuel rand : ∀ k (avail acc : list Z),
  ∃ r, generateLoop fuel rand k avail acc = acc ++ r
       ∧ length r = (fuel `min` length avail)%nat
       ∧ r ⊆+ avail.
Proof.
  induction fuel as [|fuel IH]; intros k avail acc.
  - exists []. cbn. rewrite app_nil_r. split_and!; [done..|]. apply submseteq_nil_l.
  - cbn [generateLoop]. case_bool_decide as Hlen.
    + exists []. rewrite app_nil_r, Hlen. split_and!; [done|cbn; lia|].
      apply submseteq_nil_l.
    + assert (randomIndex rand k (length avail) < length avail)%nat as Hi
        by (apply randomIndex_lt; lia).
      destruct (lookup_lt_is_Some_2 avail _ Hi) as [x Hx]. cbn zeta. rewrite Hx.
      destruct (IH (S k) (delete (randomIndex rand k (length avail)) avail) (acc ++ [x]))
        as (r & -> & Hr & Hsub).
      exists (x :: r). split_and!.
      * by rewrite <- app_assoc.
      * rewrite length_cons, Hr, length_delete by eauto. lia.
      * rewrite (delete_Permutation avail _ x Hx). by apply submseteq_skip.
Qed.

Lemma submseteq_NoDup_l (l k : list Z) : l ⊆+ k → NoDup k → NoDup l.
Proof.
  intros [k' Hk]%submseteq_Permutation Hnd. rewrite Hk in Hnd.
  by apply NoDup_app in Hnd as (? & _ & _).
Qed.

Lemma sequence_generateSequence rand s :
  sequence (generateSequence rand s)
  = generateLoop (Z.to_nat (numTilesToLight s)) rand 0 (Tile.id <$> tiles s) [].
Proof. reflexivity. Qed.

(** C6. Over a grid of [g * g] tiles with pairwise distinct ids and with
    [numTilesToLight = n], whatever the draws, [#generateSequence]
    leaves a sequence of exactly [min n (g*g)] ids that are pairwise
    distinct and are ids of tiles of the grid; for [n > g*g] the length
    is [g*g]. *)
Theorem generateSequence_spec (rand : Random) (n g : Z) (s : GameService) :
  numTilesToLight s = n →
  0 ≤ n →
  Z.of_nat (length (tiles s)) = g * g →
  NoDup (Tile.id <$> tiles s) →
  let sq := sequence (generateSequence rand s) in
  Z.of_nat (length sq) = n `min` (g * g)
  ∧ NoDup sq
  ∧ (∀ x, x ∈ sq → x ∈ Tile.id <$> tiles s)
  ∧ (n > g * g → Z.of_nat (length sq) = g * g).
Proof.
  intros Hn Hpos Hlen Hnd sq. subst sq. rewrite sequence_generateSequence, Hn.
  destruct (generateLoop_spec (Z.to_nat n) rand 0 (Tile.id <$> tiles s) [])
    as (r & -> & Hr & Hsub).
  rewrite app_nil_l, Hr, length_fmap.
  split_and!.
  - lia.
  - by eapply submseteq_NoDup_l.
  - intros x Hx. by eapply elem_of_submseteq.
  - lia.
Qed.

Lemma generateSequence_spec_witness :
  let s := set_numTilesToLight 12 constructor in
  let sq := sequence (generateSequence draws258 s) in
  Z.of_nat (length sq) = 12 `min` (3 * 3)
  ∧ NoDup sq
  ∧ (∀ x, x ∈ sq → x ∈ Tile.id <$> tiles s)
  ∧ (12 > 3 * 3 → Z.of_nat (length sq) = 3 * 3).
Proof.
  apply (generateSequence_spec draws258 12 3 (set_numTilesToLight 12 constructor)).
  - reflexivity.
  - lia.
  - reflexivity.
  - apply (bool_decide_unpack _). vm_compute. exact I.
Defined.

Example generateSequence_truncates :
  sequence (generateSequence draws258 (set_numTilesToLight 12 constructor))
  = [2; 5; 8; 0; 3; 6; 1; 4; 7].
Proof. vm_compute. reflexivity. Qed.

(** ** Round evaluation *)

Lemma includes_true (l : list Z) (x : Z) : includes l x = true ↔ x ∈ l.
Proof. unfold includes. apply bool_decide_eq_true. Qed.

Lemma every_includes (l k : list Z) :
  forallb (includes k) l = true ↔ ∀ x, x ∈ l → x ∈ k.
Proof.
  rewrite forallb_forall. split; intros H x Hx.
  - apply includes_true, H. by apply list_elem_of_In.
  - apply includes_true, H. by apply list_elem_of_In.
Qed.

(** The test of [#checkRound] holds exactly when the two arrays are
    equal as sets. *)
Lemma correctSelections_iff s :
  correctSelections s = true ↔ equalAsSets (playerInput s) (sequence s).
Proof.
  unfold correctSelections, equalAsSets.
  rewrite !andb_true_iff, !every_includes, bool_decide_eq_true. split.
  - intros [[Hpi Hlen] Hsq]. split; [exact Hlen|]. intros x. split; auto.
  - intros [Hlen Hsame]. split_and!; [|exact Hlen|]; intros x Hx; by apply Hsame.
Qed.

Lemma correctSelections_false s :
  correctSelections s = false ↔ ¬ equalAsSets (playerInput s) (sequence s).
Proof. rewrite <- correctSelections_iff. by destruct (correctSelections s). Qed.

(** [n > cap / 2] over the rationals, and the same without division. *)
Lemma exceedsHalf_Q n cap :
  exceedsHalf n cap = true ↔ (inject_Z cap / inject_Z 2 < inject_Z n)%Q.
Proof.
  unfold exceedsHalf. rewrite negb_true_iff. split.
  - intros H. apply Qnot_le_lt. rewrite <- Qle_bool_iff. by rewrite H.
  - intros H. apply Qlt_not_le in H. rewrite <- Qle_bool_iff in H.
    by destruct (Qle_bool _ _).
Qed.

Lemma exceedsHalf_Z n cap : exceedsHalf n cap = true ↔ cap < 2 * n.
Proof.
  rewrite exceedsHalf_Q. unfold Qlt, Qdiv, Qmult, Qinv, inject_Z. cbn. lia.
Qed.

(** The two branches of [#checkRound], each with the state it returns. *)
Lemma checkRound_when_correct rand s :
  correctSelections s = true →
  checkRound rand s =
    let s := set_gameState Phase.checking s in
    let s := set_currentLevel (currentLevel s + 1) s in
    let s := set_numTilesToLight (numTilesToLight s + 1) s in
    let s := if exceedsHalf (numTilesToLight s) (gridSize s * gridSize s)
             then set_gridSize (gridSize s + 1) s else s in
    nextRound rand (initializeGrid s).
Proof.
  intros H. unfold checkRound. cbn zeta.
  change (correctSelections (set_gameState Phase.checking s)) with (correctSelections s).
  by rewrite H.
Qed.

Lemma checkRound_when_incorrect rand s :
  correctSelections s = false →
  checkRound rand s =
    mkGameService (currentLevel s) (score s) Phase.over (gridSize s)
      (Tile.markOutcome (sequence s) (playerInput s) <$> tiles s)
      (numTilesToLight s) (sequence s) (playerInput s) false.
Proof.
  intros H. unfold checkRound. cbn zeta.
  change (correctSelections (set_gameState Phase.checking s)) with (correctSelections s).
  by rewrite H.
Qed.

(** A won round ends in [nextRound] on a grid that was just rebuilt. *)
Lemma checkRound_correct_nextRound rand s :
  correctSelections s = true →
  ∃ s0, checkRound rand s = nextRound rand (initializeGrid s0).
Proof.
  intros Hc. rewrite (checkRound_when_correct _ _ Hc). cbn zeta.
  eexists. reflexivity.
Qed.

Lemma score_checkRound rand s : score (checkRound rand s) = score s.
Proof.
  destruct (correctSelections s) eqn:Hc.
  - rewrite (checkRound_when_correct _ _ Hc). cbn.
    by destruct (exceedsHalf _ _).
  - by rewrite (checkRound_when_incorrect _ _ Hc).
Qed.

(** C2. Round evaluation succeeds (the test of [#checkRound] holds, and
    the phase afterwards is [sequence]) exactly when [#playerInput] and
    [#sequence] are equal as sets.  On success the level and
    [numTilesToLight] grow by one, [gridSize] grows by one exactly when
    the new [numTilesToLight] exceeds half of the square of the old
    [gridSize] and is unchanged otherwise, the grid is the fresh grid of
    the resulting size, and a new round has started: empty input, combo
    on, a newly generated sequence over the fresh grid, phase
    [sequence]. *)
Theorem checkRound_success (rand : Random) (s : GameService) :
  let s' := checkRound rand s in
  let n' := numTilesToLight s + 1 in
  let g := gridSize s in
  (correctSelections s = true ↔ equalAsSets (playerInput s) (sequence s))
  ∧ (gameState s' = Phase.sequence ↔ equalAsSets (playerInput s) (sequence s))
  ∧ (equalAsSets (playerInput s) (sequence s) →
       currentLevel s' = currentLevel s + 1
       ∧ numTilesToLight s' = n'
       ∧ (gridSize s' = g + 1 ↔ (inject_Z (g * g) / inject_Z 2 < inject_Z n')%Q)
       ∧ (¬ (inject_Z (g * g) / inject_Z 2 < inject_Z n')%Q → gridSize s' = g)
       ∧ tiles s' = Tile.fresh <$> seqZ 0 (gridSize s' * gridSize s')
       ∧ playerInput s' = []
       ∧ isInCombo s' = true
       ∧ sequence s'
         = generateLoop (Z.to_nat n') rand 0 (seqZ 0 (gridSize s' * gridSize s')) []
       ∧ score s' = score s
       ∧ gameState s' = Phase.sequence).
Proof.
  intros s' n' g. split; [apply correctSelections_iff|].
  destruct (correctSelections s) eqn:Hc.
  - pose proof (proj1 (correctSelections_iff s) Hc) as Heq.
    subst s'. rewrite (checkRound_when_correct _ _ Hc). cbn zeta.
    cbn [numTilesToLight gridSize set_numTilesToLight set_currentLevel set_gameState].
    fold n' g. rewrite <- exceedsHalf_Q.
    split; [done|]. intros _.
    destruct (exceedsHalf n' (g * g)) eqn:Hh; cbn;
      rewrite ?resetFlags_fresh, ?ids_fresh; split_and!; try done; lia.
  - pose proof (proj1 (correctSelections_false s) Hc) as Hne.
    subst s'. rewrite (checkRound_when_incorrect _ _ Hc). cbn. split; [|done].
    split; [done|]. intros Heq. by destruct Hne.
Qed.

Lemma checkRound_success_witness :
  let s := recordClick 5 (run [Click firstLeft 2; Click firstLeft 8] (firstRound draws258)) in
  let s' := checkRound firstLeft s in
  currentLevel s' = currentLevel s + 1
  ∧ numTilesToLight s' = numTilesToLight s + 1
  ∧ gameState s' = Phase.sequence.
Proof.
  cbn zeta.
  destruct (checkRound_success firstLeft
    (recordClick 5 (run [Click firstLeft 2; Click firstLeft 8] (firstRound draws258))))
    as (_ & _ & Hsuccess).
  destruct Hsuccess as (Hlevel & Hn & _ & _ & _ & _ & _ & _ & _ & Hphase).
  - apply correctSelections_iff. vm_compute. reflexivity.
  - split_and!; [exact Hlevel|exact Hn|exact Hphase].
Defined.

(** The growth law at the first two levels: 4 tiles do not exceed half
    of 9, 5 tiles do. *)
Example exceedsHalf_4_9 : exceedsHalf 4 (3 * 3) = false ∧ exceedsHalf 5 (3 * 3) = true.
Proof. split; reflexivity. Qed.

(** C3. When round evaluation fails, that is when [#playerInput] is not
    equal to [#sequence] as a set (in particular when it is full-length
    and has other elements), the combo is off, the phase is [over], both
    arrays are as before, and every tile keeps its place and id and has
    its three outcome flags set by membership of its id:
    [isCorrectAndClicked] iff in both arrays, [isCorrectAndNotClicked]
    iff in the sequence only, [isIncorrectAndClicked] iff in the input
    only; so at most one flag is set, and none when the id is in neither
    array. *)
Theorem checkRound_failure (rand : Random) (s : GameService) :
  ¬ equalAsSets (playerInput s) (sequence s) →
  let s' := checkRound rand s in
  isInCombo s' = false
  ∧ gameState s' = Phase.over
  ∧ sequence s' = sequence s
  ∧ playerInput s' = playerInput s
  ∧ length (tiles s') = length (tiles s)
  ∧ ∀ i x, tiles s !! i = Some x →
      ∃ x', tiles s' !! i = Some x'
        ∧ Tile.id x' = Tile.id x
        ∧ (Tile.isCorrectAndClicked x' = true
             ↔ Tile.id x ∈ sequence s ∧ Tile.id x ∈ playerInput s)
        ∧ (Tile.isCorrectAndNotClicked x' = true
             ↔ Tile.id x ∈ sequence s ∧ Tile.id x ∉ playerInput s)
        ∧ (Tile.isIncorrectAndClicked x' = true
             ↔ (Tile.id x ∉ sequence s) ∧ Tile.id x ∈ playerInput s)
        ∧ (Nat.b2n (Tile.isCorrectAndClicked x')
           + Nat.b2n (Tile.isCorrectAndNotClicked x')
           + Nat.b2n (Tile.isIncorrectAndClicked x') ≤ 1)%nat
        ∧ ((Tile.id x ∉ sequence s) ∧ (Tile.id x ∉ playerInput s) →
             Tile.isCorrectAndClicked x' = false
             ∧ Tile.isCorrectAndNotClicked x' = false
             ∧ Tile.isIncorrectAndClicked x' = false).
Proof.
  intros Hne%correctSelections_false s'. subst s'.
  rewrite (checkRound_when_incorrect _ _ Hne). cbn.
  split_and!; try done; [by rewrite length_fmap|].
  intros i x Hx. exists (Tile.markOutcome (sequence s) (playerInput s) x).
  rewrite list_lookup_fmap, Hx. cbn.
  rewrite !andb_true_iff, !negb_true_iff, !bool_decide_eq_true, !bool_decide_eq_false.
  split_and!; try done.
  - repeat case_bool_decide; cbn; lia.
  - intros [Hs Hp]. by rewrite !bool_decide_false.
Qed.

Lemma checkRound_failure_witness :
  let s := recordClick 9 (run [Click firstLeft 2; Click firstLeft 5] (firstRound draws258)) in
  let s' := checkRound firstLeft s in
  gameState s' = Phase.over
  ∧ tiles s' !! 8%nat = Some (Tile.mk 8 false false false true false).
Proof.
  cbn zeta.
  destruct (checkRound_failure firstLeft
    (recordClick 9 (run [Click firstLeft 2; Click firstLeft 5] (firstRound draws258))))
    as (_ & Hover & _).
  - apply correctSelections_false. vm_compute. reflexivity.
  - split; [exact Hover|]. vm_compute. reflexivity.
Defined.

(** ** The click handler *)

Lemma recordClick_frame tileId s :
  let s1 := recordClick tileId s in
  playerInput s1 = playerInput s ++ [tileId]
  ∧ tiles s1 = Tile.select tileId <$> tiles s
  ∧ sequence s1 = sequence s
  ∧ gameState s1 = gameState s
  ∧ currentLevel s1 = currentLevel s
  ∧ gridSize s1 = gridSize s
  ∧ numTilesToLight s1 = numTilesToLight s.
Proof.
  unfold recordClick. cbn.
  case_bool_decide; [destruct (isInCombo s && _)|]; by cbn.
Qed.

(** The scoring of a recorded click, as one equation for the score and
    one for the combo. *)
Lemma scoring_of_recordClick tileId s :
  let hit := isInCombo s
             && bool_decide (sequence s !! length (playerInput s) = Some tileId) in
  score (recordClick tileId s)
    = score s + (if hit then 2 else if bool_decide (tileId ∈ sequence s) then 1 else 0)
  ∧ isInCombo (recordClick tileId s) = hit.
Proof.
  unfold recordClick. cbn.
  replace (length (playerInput s ++ [tileId]) - 1)%nat with (length (playerInput s))
    by (rewrite length_app; cbn; lia).
  destruct (bool_decide (tileId ∈ sequence s)) eqn:Hin.
  - destruct (isInCombo s) eqn:Hcombo; cbn; [|split; [lia|done]].
    destruct (bool_decide (sequence s !! _ = _)); cbn; split; (done || lia).
  - apply bool_decide_eq_false in Hin.
    rewrite (bool_decide_false (sequence s !! _ = _)).
    + rewrite andb_false_r. cbn. split; [lia|done].
    + intros Hat. apply Hin. by eapply list_elem_of_lookup_2.
Qed.

Lemma handlePlayerTileClick_noop rand tileId s :
  gameState s ≠ Phase.input ∨ tileId ∈ playerInput s →
  handlePlayerTileClick rand tileId s = s.
Proof.
  intros H. unfold handlePlayerTileClick, includes.
  case_bool_decide as Hphase; [done|].
  destruct H as [H|H]; [by destruct Hphase|].
  by rewrite (bool_decide_true _ H).
Qed.

(** An accepted click is recorded and scored, and round evaluation runs
    when the input has reached the length of the sequence. *)
Lemma handlePlayerTileClick_accepted rand tileId s :
  gameState s = Phase.input →
  tileId ∉ playerInput s →
  handlePlayerTileClick rand tileId s =
    if bool_decide (length (playerInput (recordClick tileId s))
                    = length (sequence (recordClick tileId s)))
    then checkRound rand (recordClick tileId s)
    else recordClick tileId s.
Proof.
  intros Hphase Hnew. unfold handlePlayerTileClick, includes.
  rewrite bool_decide_false by (intros H; by apply H).
  by rewrite (bool_decide_false _ Hnew).
Qed.

(** Every call of the handler returns in one of the three ways. *)
Lemma handlePlayerTileClick_outcome rand tileId s :
  ClickOutcome rand tileId s (handlePlayerTileClick rand tileId s).
Proof.
  destruct (decide (gameState s = Phase.input)) as [Hphase|Hphase];
    [|rewrite handlePlayerTileClick_noop by (by left); constructor; by left].
  destruct (decide (tileId ∈ playerInput s)) as [Hin|Hnew];
    [rewrite handlePlayerTileClick_noop by (by right); constructor; by right|].
  rewrite (handlePlayerTileClick_accepted _ _ _ Hphase Hnew).
  destruct (recordClick_frame tileId s) as (-> & _ & -> & _).
  case_bool_decide; by constructor.
Qed.

(** What a recorded click and a round evaluation both keep, the handler
    keeps. *)
Lemma handlePlayerTileClick_preserves (P : GameService → Prop) rand tileId s :
  (P s → P (recordClick tileId s)) →
  (∀ s1, P s1 → P (checkRound rand s1)) →
  P s → P (handlePlayerTileClick rand tileId s).
Proof.
  intros Hrec Hcheck Hs.
  destruct (handlePlayerTileClick_outcome rand tileId s); auto.
Qed.

(** C8. A click whose tile id is already in [#playerInput], or that
    arrives in any phase other than [input], returns the service
    unchanged: score, input, phase, tiles and every other field. *)
Theorem handlePlayerTileClick_ignored (rand : Random) (tileId : Z) (s : GameService) :
  gameState s ≠ Phase.input ∨ tileId ∈ playerInput s →
  handlePlayerTileClick rand tileId s = s.
Proof.
  intros [Hphase|Hin]; unfold handlePlayerTileClick.
  - by rewrite (bool_decide_true _ Hphase).
  - case_bool_decide; [done|]. by rewrite (proj2 (includes_true _ _) Hin).
Qed.

Lemma handlePlayerTileClick_ignored_witness :
  let s := run [Click firstLeft 2] (firstRound draws258) in
  handlePlayerTileClick firstLeft 2 s = s
  ∧ handlePlayerTileClick firstLeft 2 (startGame draws258 constructor)
    = startGame draws258 constructor.
Proof.
  split.
  - apply handlePlayerTileClick_ignored. right.
    apply (bool_decide_unpack _). vm_compute. exact I.
  - apply handlePlayerTileClick_ignored. left. vm_compute. discriminate.
Defined.

(** C1. A click handled in phase [input] on an id not yet in
    [#playerInput] is appended, and is scored against the position it
    took, [len(playerInput) - 1] after the append.  With the combo on
    and the id equal to the sequence at that position the score grows by
    exactly 2 and the combo stays on; otherwise the combo goes off and
    the score grows by exactly 1 when the id is somewhere in the
    sequence and by 0 when it is not.  This is the state in which the
    handler tests for the end of the round; round evaluation, when it
    runs, leaves the score as scored. *)
Theorem recordClick_scoring (rand : Random) (tileId : Z) (s : GameService) :
  gameState s = Phase.input →
  tileId ∉ playerInput s →
  let s1 := recordClick tileId s in
  let position := (length (playerInput s1) - 1)%nat in
  let comboHit := isInCombo s = true ∧ sequence s !! position = Some tileId in
  playerInput s1 = playerInput s ++ [tileId]
  ∧ (comboHit → score s1 = score s + 2 ∧ isInCombo s1 = true)
  ∧ (¬ comboHit →
       isInCombo s1 = false
       ∧ (tileId ∈ sequence s → score s1 = score s + 1)
       ∧ (tileId ∉ sequence s → score s1 = score s))
  ∧ handlePlayerTileClick rand tileId s =
      (if bool_decide (length (playerInput s1) = length (sequence s1))
       then checkRound rand s1 else s1)
  ∧ score (handlePlayerTileClick rand tileId s) = score s1.
Proof.
  intros Hphase Hnew s1 position comboHit.
  destruct (recordClick_frame tileId s) as (Hpi & _).
  destruct (scoring_of_recordClick tileId s) as [Hscore Hcombo].
  assert (position = length (playerInput s)) as Hpos.
  { subst position s1. rewrite Hpi, length_app. cbn. lia. }
  fold s1 in Hpi, Hscore, Hcombo. subst comboHit. rewrite Hpos.
  pose proof (handlePlayerTileClick_accepted rand tileId s Hphase Hnew) as Hh.
  fold s1 in Hh.
  split_and!.
  - exact Hpi.
  - intros [Hc Hat]. rewrite Hscore, Hcombo, Hc, (bool_decide_true _ Hat). by cbn.
  - intros Hno.
    assert (isInCombo s
            && bool_decide (sequence s !! length (playerInput s) = Some tileId)
            = false) as Hhit.
    { destruct (isInCombo s); [|done]. cbn. apply bool_decide_eq_false.
      intros Hat. by apply Hno. }
    rewrite Hscore, Hcombo, Hhit. split_and!; [done| |].
    + intros Hin. by rewrite (bool_decide_true _ Hin).
    + intros Hout. rewrite (bool_decide_false _ Hout). lia.
  - exact Hh.
  - rewrite Hh. case_bool_decide; [apply score_checkRound|done].
Qed.

Lemma recordClick_scoring_witness :
  score (recordClick 2 (firstRound draws258)) = score (firstRound draws258) + 2
  ∧ isInCombo (recordClick 2 (firstRound draws258)) = true.
Proof.
  destruct (recordClick_scoring firstLeft 2 (firstRound draws258)) as (_ & Hhit & _).
  - reflexivity.
  - apply (bool_decide_unpack _). vm_compute. exact I.
  - apply Hhit. split; reflexivity.
Defined.

(** The two scenarios of the specification on the sequence [[2; 5; 8]]:
    clicks in order score 2 + 2 + 2, clicks [2, 8, 5] score 2 + 1 + 1,
    and both win the round. *)
Example scenario_in_order :
  let s := run [Click firstLeft 2; Click firstLeft 5; Click firstLeft 8]
               (firstRound draws258) in
  sequence (firstRound draws258) = [2; 5; 8]
  ∧ sessionFields s = (2, 6, 3, 4)
  ∧ gameState s = Phase.sequence.
Proof. vm_compute. done. Qed.

Example scenario_out_of_order :
  let s := run [Click firstLeft 2; Click firstLeft 8; Click firstLeft 5]
               (firstRound draws258) in
  sessionFields s = (2, 4, 3, 4)
  ∧ gameState s = Phase.sequence.
Proof. vm_compute. done. Qed.

(** ** Session fields *)

Lemma checkRound_incorrect_frame rand s :
  correctSelections s = false →
  currentLevel (checkRound rand s) = currentLevel s
  ∧ gridSize (checkRound rand s) = gridSize s
  ∧ numTilesToLight (checkRound rand s) = numTilesToLight s.
Proof. intros Hc. by rewrite (checkRound_when_incorrect _ _ Hc). Qed.

(** The score after a click, in every outcome. *)
Lemma score_handlePlayerTileClick rand tileId s :
  score s ≤ score (handlePlayerTileClick rand tileId s) ≤ score s + 2.
Proof.
  assert (score s ≤ score (recordClick tileId s) ≤ score s + 2) as Hrec.
  { destruct (scoring_of_recordClick tileId s) as [-> _].
    destruct (isInCombo s && _); [lia|]. case_bool_decide; lia. }
  destruct (handlePlayerTileClick_outcome rand tileId s);
    rewrite ?score_checkRound; lia.
Qed.

(** C5, refuted as stated.  In the first round on the sequence
    [[2; 5; 8]] the click on tile 2 leaves the input shorter than the
    sequence, so the round is not completed, and yet the score, a
    session field, has changed. *)
Lemma click_changes_score_mid_round :
  let s := firstRound draws258 in
  let s' := handlePlayerTileClick firstLeft 2 s in
  (length (playerInput s') < length (sequence s'))%nat
  ∧ gameState s' = Phase.input
  ∧ score s = 0 ∧ score s' = 2
  ∧ sessionFields s' ≠ sessionFields s.
Proof. vm_compute. split_and!; (done || lia). Qed.

(** C5, amended.  Start and reset put the session fields back to
    [(1, 0, 3, 3)].  A click changes [currentLevel], [gridSize] and
    [numTilesToLight] only when it completes a round that succeeds; in
    particular a click that leaves the input shorter than the sequence
    leaves the three unchanged.  The score is not among them: it never
    goes down and grows by at most 2 with every click, and by exactly
    what the scoring of that click gives when the click is accepted. *)
Theorem session_fields_frame (rand : Random) (tileId : Z) (s : GameService) :
  let s' := handlePlayerTileClick rand tileId s in
  sessionFields (startGame rand s) = (1, 0, 3, 3)
  ∧ sessionFields (resetGame s) = (1, 0, 3, 3)
  ∧ (¬ roundSucceeds tileId s →
       currentLevel s' = currentLevel s
       ∧ gridSize s' = gridSize s
       ∧ numTilesToLight s' = numTilesToLight s)
  ∧ ((length (playerInput s) + 1 < length (sequence s))%nat →
       currentLevel s' = currentLevel s
       ∧ gridSize s' = gridSize s
       ∧ numTilesToLight s' = numTilesToLight s)
  ∧ score s ≤ score s' ≤ score s + 2
  ∧ (gameState s = Phase.input → tileId ∉ playerInput s →
       score s' = score (recordClick tileId s)).
Proof.
  intros s'.
  assert (¬ roundSucceeds tileId s →
          currentLevel s' = currentLevel s
          ∧ gridSize s' = gridSize s
          ∧ numTilesToLight s' = numTilesToLight s) as Hframe.
  { intros Hno. subst s'.
    destruct (recordClick_frame tileId s) as (Hpi & _ & Hsq & _ & Hl & Hg & Hn).
    destruct (handlePlayerTileClick_outcome rand tileId s)
      as [Hign|Hphase Hnew Hopen|Hphase Hnew Hfull]; [done..|].
    destruct (correctSelections (recordClick tileId s)) eqn:Hc.
    - apply correctSelections_iff in Hc. rewrite Hpi, Hsq in Hc. by destruct Hno.
    - destruct (checkRound_incorrect_frame rand _ Hc) as (-> & -> & ->). done. }
  do 2 (split; [done|]). split; [exact Hframe|].
  split; [|split; [apply score_handlePlayerTileClick|]].
  - intros Hshort. apply Hframe. intros (_ & _ & Hlen & _).
    rewrite length_app in Hlen. cbn in Hlen. lia.
  - intros Hphase Hnew. subst s'.
    rewrite (handlePlayerTileClick_accepted _ _ _ Hphase Hnew).
    case_bool_decide; [apply score_checkRound|done].
Qed.

Lemma session_fields_frame_witness :
  let s := firstRound draws258 in
  let s' := handlePlayerTileClick firstLeft 2 s in
  currentLevel s' = currentLevel s
  ∧ gridSize s' = gridSize s
  ∧ numTilesToLight s' = numTilesToLight s.
Proof.
  destruct (session_fields_frame firstLeft 2 (firstRound draws258))
    as (_ & _ & _ & Hshort & _).
  apply Hshort. vm_compute. lia.
Defined.

(** ** Invariants of the reachable states *)

Lemma nextRound_fields rand s :
  tiles (nextRound rand s) = Tile.resetFlags <$> tiles s
  ∧ sequence (nextRound rand s)
    = generateLoop (Z.to_nat (numTilesToLight s)) rand 0 (Tile.id <$> tiles s) []
  ∧ gridSize (nextRound rand s) = gridSize s.
Proof.
  unfold nextRound, generateSequence. cbn. by rewrite ids_resetFlags.
Qed.

Lemma startGame_nextRound rand s :
  ∃ s0, startGame rand s
        = set_gameState Phase.sequence (nextRound rand (initializeGrid s0)).
Proof. eexists. reflexivity. Qed.

Lemma beginInput_frame s :
  tiles (beginInput s) = tiles s ∧ sequence (beginInput s) = sequence s
  ∧ gridSize (beginInput s) = gridSize s.
Proof. unfold beginInput. by case_bool_decide. Qed.

Lemma reachable_run cs s : reachable s → reachable (run cs s).
Proof.
  revert s. induction cs as [|c cs IH]; intros s Hs; [done|].
  cbn. apply IH. by constructor.
Qed.

Lemma sequenceOnGrid_nextRound rand s : sequenceOnGrid (nextRound rand s).
Proof.
  unfold sequenceOnGrid.
  destruct (nextRound_fields rand s) as (-> & -> & _). rewrite ids_resetFlags.
  destruct (generateLoop_spec (Z.to_nat (numTilesToLight s)) rand 0
              (Tile.id <$> tiles s) []) as (r & -> & _ & Hsub).
  intros x Hx. by eapply elem_of_submseteq.
Qed.

Lemma sequenceOnGrid_recordClick tileId s :
  sequenceOnGrid s → sequenceOnGrid (recordClick tileId s).
Proof.
  unfold sequenceOnGrid. destruct (recordClick_frame tileId s) as (_ & -> & -> & _).
  by rewrite ids_select.
Qed.

Lemma sequenceOnGrid_checkRound rand s :
  sequenceOnGrid s → sequenceOnGrid (checkRound rand s).
Proof.
  intros Hinv. destruct (correctSelections s) eqn:Hc.
  - destruct (checkRound_correct_nextRound rand _ Hc) as (s0 & ->).
    apply sequenceOnGrid_nextRound.
  - rewrite (checkRound_when_incorrect _ _ Hc). unfold sequenceOnGrid. cbn.
    by rewrite ids_markOutcome.
Qed.

Lemma reachable_sequenceOnGrid s : reachable s → sequenceOnGrid s.
Proof.
  induction 1 as [|c s _ IH].
  - unfold sequenceOnGrid. change (sequence constructor) with (@nil Z).
    by intros x Hx%elem_of_nil.
  - destruct c as [rand| | |rand tileId]; cbn [exec].
    + destruct (startGame_nextRound rand s) as [s0 ->].
      exact (sequenceOnGrid_nextRound rand (initializeGrid s0)).
    + exact IH.
    + unfold sequenceOnGrid. by destruct (beginInput_frame s) as (-> & -> & _).
    + apply handlePlayerTileClick_preserves;
        auto using sequenceOnGrid_recordClick, sequenceOnGrid_checkRound.
Qed.

Lemma noneLit_initializeGrid s : noneLit (initializeGrid s).
Proof.
  unfold noneLit. rewrite tiles_initializeGrid.
  apply Forall_fmap, Forall_forall. by intros i _.
Qed.

Lemma noneLit_nextRound rand s : noneLit (nextRound rand s).
Proof.
  unfold noneLit. destruct (nextRound_fields rand s) as (-> & _).
  apply Forall_fmap, Forall_forall. by intros x _.
Qed.

Lemma noneLit_recordClick tileId s : noneLit s → noneLit (recordClick tileId s).
Proof.
  unfold noneLit. destruct (recordClick_frame tileId s) as (_ & -> & _).
  intros Hinv. apply Forall_fmap. eapply Forall_impl; [exact Hinv|].
  intros x Hx. cbn. by rewrite lit_select.
Qed.

Lemma noneLit_checkRound rand s : noneLit s → noneLit (checkRound rand s).
Proof.
  intros Hinv. destruct (correctSelections s) eqn:Hc.
  - destruct (checkRound_correct_nextRound rand _ Hc) as (s0 & ->).
    apply noneLit_nextRound.
  - rewrite (checkRound_when_incorrect _ _ Hc). unfold noneLit. cbn.
    apply Forall_fmap. eapply Forall_impl; [exact Hinv|]. by intros x Hx.
Qed.

Lemma noneLit_exec c s : noneLit s → noneLit (exec c s).
Proof.
  intros Hinv. destruct c as [rand| | |rand tileId]; cbn [exec].
  - destruct (startGame_nextRound rand s) as [s0 ->].
    exact (noneLit_nextRound rand (initializeGrid s0)).
  - exact Hinv.
  - unfold noneLit. by destruct (beginInput_frame s) as (-> & _).
  - apply handlePlayerTileClick_preserves;
      auto using noneLit_recordClick, noneLit_checkRound.
Qed.

(** C10. No tile is lit in any state that the service reaches by its
    constructor and commands.  Each command keeps it so: grid
    initialization and the start of a round leave no tile lit whatever
    the state before, and a click, with the round evaluation it may run
    and the annotation of a failed round, leaves [lit] as it was. *)
Theorem lit_never_set (s : GameService) :
  (reachable s → Forall (λ x, Tile.lit x = false) (tiles s))
  ∧ (∀ c, noneLit s → noneLit (exec c s))
  ∧ noneLit (initializeGrid s)
  ∧ (∀ rand, noneLit (nextRound rand s))
  ∧ (∀ rand, noneLit s → noneLit (checkRound rand s))
  ∧ (∀ rand, ¬ equalAsSets (playerInput s) (sequence s) →
       Tile.lit <$> tiles (checkRound rand s) = Tile.lit <$> tiles s).
Proof.
  split_and!.
  - induction 1 as [|c s _ IH].
    + exact (noneLit_initializeGrid fieldDefaults).
    + exact (noneLit_exec c s IH).
  - intros c. apply noneLit_exec.
  - apply noneLit_initializeGrid.
  - intros rand. apply noneLit_nextRound.
  - intros rand. apply noneLit_checkRound.
  - intros rand Hc%correctSelections_false.
    rewrite (checkRound_when_incorrect _ _ Hc). cbn. apply lit_markOutcome.
Qed.

Lemma lit_never_set_witness :
  Forall (λ x, Tile.lit x = false) (tiles (run winTwiceThenReset constructor)).
Proof.
  exact (proj1 (lit_never_set (run winTwiceThenReset constructor))
           (reachable_run winTwiceThenReset constructor reachable_constructor)).
Defined.

(** ** Clicks on ids that are not on the grid *)

(** C9. In a state the service has reached, a click in phase [input] on
    an id that no tile of the grid has and that is not yet in
    [#playerInput] is appended to [#playerInput], changes no tile's
    [selectedByPlayer], adds 0 to the score and leaves the combo off.
    It counts for the end of the round: when it fills the input to the
    length of the sequence the round is evaluated and fails, phase
    [over]; otherwise the phase stays [input] and the tiles are
    untouched. *)
Theorem click_off_grid (rand : Random) (tileId : Z) (s : GameService) :
  reachable s →
  gameState s = Phase.input →
  tileId ∉ Tile.id <$> tiles s →
  tileId ∉ playerInput s →
  let s' := handlePlayerTileClick rand tileId s in
  playerInput s' = playerInput s ++ [tileId]
  ∧ Tile.selectedByPlayer <$> tiles s' = Tile.selectedByPlayer <$> tiles s
  ∧ score s' = score s
  ∧ isInCombo s' = false
  ∧ sequence s' = sequence s
  ∧ ((length (playerInput s) + 1)%nat = length (sequence s) → gameState s' = Phase.over)
  ∧ ((length (playerInput s) + 1)%nat ≠ length (sequence s) →
       gameState s' = Phase.input ∧ tiles s' = tiles s).
Proof.
  intros Hreach Hphase Hoff Hnew s'. subst s'.
  pose proof (reachable_sequenceOnGrid s Hreach) as Hon.
  assert (tileId ∉ sequence s) as Hout by (intros Hin; by apply Hoff, Hon).
  rewrite (handlePlayerTileClick_accepted _ _ _ Hphase Hnew).
  destruct (recordClick_frame tileId s) as (Hpi & Hts & Hsq & Hgs & _).
  destruct (scoring_of_recordClick tileId s) as [Hscore Hcombo].
  rewrite (bool_decide_false (tileId ∈ sequence s)) in Hscore by done.
  rewrite (bool_decide_false (sequence s !! _ = _)), andb_false_r in Hscore, Hcombo
    by (intros Hat; apply Hout; by eapply list_elem_of_lookup_2).
  rewrite select_off_grid in Hts by done.
  rewrite Hpi, Hsq, length_app. cbn [length].
  case_bool_decide as Hfull.
  - assert (correctSelections (recordClick tileId s) = false) as Hc.
    { apply correctSelections_false. rewrite Hpi, Hsq. intros [_ Hsame].
      apply Hout, Hsame, elem_of_app. right. by apply list_elem_of_singleton. }
    rewrite (checkRound_when_incorrect _ _ Hc). cbn.
    rewrite selected_markOutcome, Hts, Hscore, Hpi, Hsq.
    split_and!; try done; lia.
  - rewrite Hts, Hscore, Hcombo, Hpi, Hsq, Hgs. split_and!; try done; lia.
Qed.

Lemma click_off_grid_witness :
  let s := run [Click firstLeft 2; Click firstLeft 5] (firstRound draws258) in
  let s' := handlePlayerTileClick firstLeft (-1) s in
  playerInput s' = [2; 5; -1]
  ∧ score s' = 4
  ∧ isInCombo s' = false
  ∧ gameState s' = Phase.over.
Proof.
  cbn zeta.
  destruct (click_off_grid firstLeft (-1)
              (run [Click firstLeft 2; Click firstLeft 5] (firstRound draws258)))
    as (Hpi & _ & Hscore & Hcombo & _ & Hover & _).
  - exact (reachable_run _ _ (reachable_run _ _ reachable_constructor)).
  - vm_compute. reflexivity.
  - apply (bool_decide_unpack _). vm_compute. exact I.
  - apply (bool_decide_unpack _). vm_compute. exact I.
  - split_and!.
    + rewrite Hpi. vm_compute. reflexivity.
    + rewrite Hscore. vm_compute. reflexivity.
    + exact Hcombo.
    + apply Hover. vm_compute. reflexivity.
Defined.

(** ** The grid invariant *)

Lemma gridInvariant_initializeGrid s : gridInvariant (initializeGrid s).
Proof.
  unfold gridInvariant. rewrite tiles_initializeGrid, length_fmap, length_seqZ.
  change (gridSize (initializeGrid s)) with (gridSize s). nia.
Qed.

Lemma gridInvariant_nextRound rand s : gridInvariant s → gridInvariant (nextRound rand s).
Proof.
  unfold gridInvariant.
  destruct (nextRound_fields rand s) as (-> & _ & ->). by rewrite length_fmap.
Qed.

(** [startGame] establishes the invariant ... *)
Lemma gridInvariant_startGame rand s : gridInvariant (startGame rand s).
Proof.
  destruct (startGame_nextRound rand s) as (s0 & ->).
  change (gridInvariant (nextRound rand (initializeGrid s0))).
  apply gridInvariant_nextRound, gridInvariant_initializeGrid.
Qed.

Lemma gridInvariant_recordClick tileId s :
  gridInvariant s → gridInvariant (recordClick tileId s).
Proof.
  unfold gridInvariant.
  destruct (recordClick_frame tileId s) as (_ & -> & _ & _ & _ & -> & _).
  by rewrite length_fmap.
Qed.

Lemma gridInvariant_checkRound rand s :
  gridInvariant s → gridInvariant (checkRound rand s).
Proof.
  intros Hinv. destruct (correctSelections s) eqn:Hc.
  - destruct (checkRound_correct_nextRound rand _ Hc) as (s0 & ->).
    apply gridInvariant_nextRound, gridInvariant_initializeGrid.
  - rewrite (checkRound_when_incorrect _ _ Hc). unfold gridInvariant. cbn.
    by rewrite length_fmap.
Qed.

(** ... and a click, with the round evaluation it may run, keeps it. *)
Lemma gridInvariant_handlePlayerTileClick rand tileId s :
  gridInvariant s → gridInvariant (handlePlayerTileClick rand tileId s).
Proof.
  apply handlePlayerTileClick_preserves;
    auto using gridInvariant_recordClick, gridInvariant_checkRound.
Qed.

(** [resetGame] sets [gridSize] to 3 and leaves the tiles as they are:
    the invariant holds afterwards only on a grid of 9 tiles. *)
Lemma gridInvariant_resetGame_iff s :
  gridInvariant (resetGame s) ↔ length (tiles s) = 9%nat.
Proof. unfold gridInvariant. cbn. lia. Qed.

(** C4, evaluated where it fails.  After two won rounds the grid has
    size 4 and 16 tiles, and the invariant holds.  [resetGame] then sets
    [gridSize] to 3 and leaves the 16 tiles in place, so the state it
    returns, a reachable one, has [len(tiles) = 16] and [gridSize² = 9]. *)
Theorem resetGame_breaks_gridInvariant :
  let s := run winTwice constructor in
  reachable (resetGame s)
  ∧ gridInvariant s
  ∧ gridSize s = 4 ∧ length (tiles s) = 16%nat
  ∧ gridSize (resetGame s) = 3 ∧ length (tiles (resetGame s)) = 16%nat
  ∧ ¬ gridInvariant (resetGame s).
Proof.
  cbn zeta. split_and!.
  - exact (reachable_exec ResetGame _ (reachable_run winTwice _ reachable_constructor)).
  - vm_compute. reflexivity.
  - vm_compute. reflexivity.
  - vm_compute. reflexivity.
  - vm_compute. reflexivity.
  - vm_compute. reflexivity.
  - vm_compute. discriminate.
Qed.

(** ** Starting and resetting a game *)

Lemma nextRound_initializeGrid rand s :
  nextRound rand (initializeGrid s)
  = freshRound rand (currentLevel s) (score s) (gridSize s) (numTilesToLight s).
Proof.
  unfold nextRound, generateSequence, initializeGrid, freshRound. cbn.
  by rewrite resetFlags_fresh, ids_fresh.
Qed.

Lemma startGame_freshRound rand s : startGame rand s = freshRound rand 1 0 3 3.
Proof.
  unfold startGame. cbn zeta.
  rewrite (nextRound_initializeGrid rand
             (set_gridSize 3 (set_numTilesToLight 3 (set_isInCombo false
                (set_score 0 (set_currentLevel 1 s)))))).
  reflexivity.
Qed.

Lemma freshRound_sequence rand level sc g n :
  0 ≤ n → n ≤ g * g →
  let sq := sequence (freshRound rand level sc g n) in
  Z.of_nat (length sq) = n ∧ NoDup sq ∧ ∀ x, x ∈ sq → 0 ≤ x < g * g.
Proof.
  intros Hn Hle sq. subst sq. cbn [sequence freshRound].
  destruct (generateLoop_spec (Z.to_nat n) rand 0 (seqZ 0 (g * g)) [])
    as (r & -> & Hr & Hsub).
  rewrite app_nil_l, Hr, length_seqZ. split_and!.
  - lia.
  - eapply submseteq_NoDup_l; [exact Hsub|apply NoDup_seqZ].
  - intros x Hx. pose proof (elem_of_submseteq _ _ _ Hx Hsub) as Hin.
    apply elem_of_seqZ in Hin. lia.
Qed.

(** X1. [startGame] forgets the game before it: whatever the state, it
    returns the state that depends on the draws only, with the session
    fields [(1, 0, 3, 3)], nine fresh tiles, an empty input, the combo
    on, phase [sequence], and a sequence of three pairwise distinct ids
    among [0 .. 8]. *)
Theorem startGame_fresh (rand : Random) (s s0 : GameService) :
  let s' := startGame rand s in
  startGame rand s0 = s'
  ∧ sessionFields s' = (1, 0, 3, 3)
  ∧ tiles s' = Tile.fresh <$> seqZ 0 9
  ∧ playerInput s' = []
  ∧ isInCombo s' = true
  ∧ gameState s' = Phase.sequence
  ∧ length (sequence s') = 3%nat
  ∧ NoDup (sequence s')
  ∧ ∀ x, x ∈ sequence s' → 0 ≤ x < 9.
Proof.
  intros s'. subst s'. rewrite !startGame_freshRound.
  destruct (freshRound_sequence rand 1 0 3 3) as (Hlen & Hnd & Hids); [lia..|].
  split_and!; try done. lia.
Qed.

Lemma gameState_checkRound rand s :
  gameState (checkRound rand s) = Phase.sequence
  ∨ gameState (checkRound rand s) = Phase.over.
Proof.
  destruct (correctSelections s) eqn:Hc.
  - destruct (checkRound_correct_nextRound rand _ Hc) as (s0 & ->). by left.
  - rewrite (checkRound_when_incorrect _ _ Hc). by right.
Qed.

(** X2. [resetGame] touches neither the tiles nor the two arrays, and
    after it the service waits for [startGame]: through any run of
    clicks and phase flips the board, the sequence and the input of the
    game before stay as they were, with the session fields
    [(1, 0, 3, 3)], the combo off and the phase [idle]. *)
Theorem resetGame_keeps_board (cs : list Command) (s : GameService) :
  Forall isClickOrFlip cs →
  let s' := run cs (resetGame s) in
  tiles s' = tiles s
  ∧ getSequence s' = getSequence s
  ∧ playerInput s' = playerInput s
  ∧ sessionFields s' = (1, 0, 3, 3)
  ∧ isInCombo s' = false
  ∧ gameState s' = Phase.idle.
Proof.
  intros Hcs s'. subst s'.
  assert (∀ s0, gameState s0 = Phase.idle → run cs s0 = s0) as Hidle.
  { induction Hcs as [|c cs Hc _ IH]; intros s0 Hphase; [done|].
    change (run (c :: cs) s0) with (run cs (exec c s0)).
    destruct c as [rand| | |rand tileId]; try done; cbn [exec].
    - unfold beginInput. rewrite bool_decide_false by by rewrite Hphase.
      by apply IH.
    - rewrite handlePlayerTileClick_noop by (left; by rewrite Hphase).
      by apply IH. }
  by rewrite (Hidle (resetGame s)).
Qed.

Lemma resetGame_keeps_board_witness :
  let s := run winTwice constructor in
  tiles (run (clicks firstLeft [0; 1]) (resetGame s)) = tiles s.
Proof.
  apply (resetGame_keeps_board (clicks firstLeft [0; 1]) (run winTwice constructor)).
  repeat constructor.
Defined.

(** X3. [nextRound], from any state: every tile keeps its place and id
    and has all five flags false, the input is empty, the combo is on,
    the phase is [sequence], the session fields are as before, and the
    sequence is the one [#generateSequence] draws over the tiles as they
    were. *)
Theorem nextRound_spec (rand : Random) (s : GameService) :
  let s' := nextRound rand s in
  Tile.id <$> tiles s' = Tile.id <$> tiles s
  ∧ length (tiles s') = length (tiles s)
  ∧ Forall allFlagsFalse (tiles s')
  ∧ playerInput s' = []
  ∧ isInCombo s' = true
  ∧ gameState s' = Phase.sequence
  ∧ sessionFields s' = sessionFields s
  ∧ sequence s' = sequence (generateSequence rand s).
Proof.
  intros s'. subst s'.
  destruct (nextRound_fields rand s) as (Hts & Hsq & Hg).
  rewrite Hts, Hsq, ids_resetFlags, length_fmap, sequence_generateSequence.
  split_and!; try done.
  apply Forall_fmap, Forall_forall. intros x _. by repeat split.
Qed.

(** X4. The edges of [#generateSequence].  With no tile, or with
    [numTilesToLight] not positive, the sequence is empty.  With
    [numTilesToLight] at least the number of tiles, the sequence is a
    rearrangement of all the tile ids.  The sequence before the call
    plays no part, and no other field changes. *)
Theorem generateSequence_edges (rand : Random) (s : GameService) :
  let s' := generateSequence rand s in
  (tiles s = [] ∨ numTilesToLight s ≤ 0 → sequence s' = [])
  ∧ (Z.of_nat (length (tiles s)) ≤ numTilesToLight s →
       sequence s' ≡ₚ Tile.id <$> tiles s)
  ∧ (∀ sq, generateSequence rand (set_sequence sq s) = s')
  ∧ set_sequence (sequence s) s' = s.
Proof.
  intros s'. subst s'. rewrite sequence_generateSequence.
  destruct (generateLoop_spec (Z.to_nat (numTilesToLight s)) rand 0
              (Tile.id <$> tiles s) []) as (r & -> & Hr & Hsub).
  rewrite app_nil_l. rewrite length_fmap in Hr. split_and!.
  - intros Hedge. apply length_zero_iff_nil. rewrite Hr.
    destruct Hedge as [-> | Hn]; [cbn; lia|]. lia.
  - intros Hall. apply submseteq_length_Permutation; [exact Hsub|].
    rewrite Hr, length_fmap. lia.
  - done.
  - by destruct s.
Qed.

Lemma generateSequence_edges_witness :
  sequence (generateSequence draws258 (set_numTilesToLight 9 constructor))
  ≡ₚ Tile.id <$> tiles (set_numTilesToLight 9 constructor).
Proof.
  apply (generateSequence_edges draws258 (set_numTilesToLight 9 constructor)).
  vm_compute. discriminate.
Defined.

(** X5. A second click on the same tile never does anything: whatever
    the first click did (ignored, recorded, or round evaluated), the
    state after the second is the state after the first. *)
Theorem handlePlayerTileClick_twice (rand rand' : Random) (tileId : Z)
    (s : GameService) :
  handlePlayerTileClick rand' tileId (handlePlayerTileClick rand tileId s)
  = handlePlayerTileClick rand tileId s.
Proof.
  destruct (handlePlayerTileClick_outcome rand tileId s)
    as [Hign|Hphase Hnew Hopen|Hphase Hnew Hfull].
  - by apply handlePlayerTileClick_noop.
  - apply handlePlayerTileClick_noop. right.
    destruct (recordClick_frame tileId s) as (-> & _).
    apply elem_of_app. right. by apply list_elem_of_singleton.
  - apply handlePlayerTileClick_noop. left.
    by destruct (gameState_checkRound rand (recordClick tileId s)) as [-> | ->].
Qed.

Lemma dead_phase_steady (cs : list Command) (s : GameService) :
  gameState s = Phase.idle ∨ gameState s = Phase.over
    ∨ gameState s = Phase.checking →
  Forall isClickOrFlip cs →
  run cs s = s.
Proof.
  intros Hdead Hcs. induction Hcs as [|c cs Hc _ IH]; [done|].
  assert (exec c s = s) as Hstep.
  { destruct c as [rand| | |rand tileId]; try done; cbn [exec].
    - unfold beginInput. rewrite bool_decide_false; [done|].
      intros Hseq. rewrite Hseq in Hdead. by destruct Hdead as [|[|]].
    - apply handlePlayerTileClick_noop. left.
      intros Hin. rewrite Hin in Hdead. by destruct Hdead as [|[|]]. }
  change (run (c :: cs) s) with (run cs (exec c s)). by rewrite Hstep.
Qed.

(** X6. Phases [idle], [over] and [checking] are dead ends for the
    rendering layer: no run of clicks and phase flips changes the
    state. *)
Theorem dead_phase_run (cs : list Command) (s : GameService) :
  gameState s = Phase.idle ∨ gameState s = Phase.over
    ∨ gameState s = Phase.checking →
  Forall isClickOrFlip cs →
  run cs s = s.
Proof.
  intros Hdead Hcs. revert s Hdead.
  induction Hcs as [|c cs Hc _ IH]; intros s Hdead; [done|].
  destruct c as [rand| | |rand tileId]; try done;
    change (run (?c :: cs) s) with (run cs (exec c s)); cbn [exec].
  - unfold beginInput. case_bool_decide as Hseq; [|by apply IH].
    rewrite Hseq in Hdead. by destruct Hdead as [|[|]].
  - rewrite handlePlayerTileClick_noop; [by apply IH|]. left.
    intros Hin. rewrite Hin in Hdead. by destruct Hdead as [|[|]].
Qed.

Lemma dead_phase_run_witness :
  let s := run (clicks firstLeft [2; 5; 9]) (firstRound draws258) in
  run [Click firstLeft 8; BeginInput; Click firstLeft 0] s = s.
Proof.
  apply dead_phase_run.
  - right. left. vm_compute. reflexivity.
  - repeat constructor.
Defined.

(** ** Well-formed states *)

Lemma checkRound_correct_freshRound rand s :
  correctSelections s = true →
  checkRound rand s
  = freshRound rand (currentLevel s + 1) (score s)
      (if exceedsHalf (numTilesToLight s + 1) (gridSize s * gridSize s)
       then gridSize s + 1 else gridSize s)
      (numTilesToLight s + 1).
Proof.
  intros Hc. rewrite (checkRound_when_correct _ _ Hc). cbn zeta.
  rewrite nextRound_initializeGrid. cbn. by destruct (exceedsHalf _ _).
Qed.

Lemma boardInv_freshRound rand level sc g n :
  3 ≤ g → 0 ≤ n → 2 * n ≤ g * g → boardInv (freshRound rand level sc g n).
Proof.
  intros Hg Hn Hhalf.
  destruct (freshRound_sequence rand level sc g n) as (Hlen & Hnd & _); [lia..|].
  unfold boardInv, gridInvariant. cbn [tiles sequence gameState gridSize
    numTilesToLight playerInput freshRound] in *.
  rewrite ids_fresh, length_fmap, length_seqZ.
  split_and!; try done.
  - f_equal. nia.
  - nia.
  - intros _. split; [nia|done].
  - intros x (i & -> & _)%list_elem_of_fmap. cbn. split; [done|].
    by intros ?%elem_of_nil.
  - intros _. apply Forall_fmap, Forall_forall. by intros i _.
Qed.

Lemma roundInv_freshRound rand level sc g n : roundInv (freshRound rand level sc g n).
Proof.
  unfold roundInv. cbn [playerInput gameState isInCombo freshRound].
  split_and!; try done.
  - apply NoDup_nil_2.
  - cbn. lia.
Qed.

Lemma selected_select tileId x :
  Tile.selectedByPlayer (Tile.select tileId x) = true
  ↔ Tile.selectedByPlayer x = true ∨ Tile.id x = tileId.
Proof.
  unfold Tile.select. case_bool_decide; cbn; [tauto|]. split; [tauto|].
  by intros [?|?].
Qed.

Lemma noOutcome_select tileId x : noOutcome x → noOutcome (Tile.select tileId x).
Proof. unfold noOutcome, Tile.select. by case_bool_decide. Qed.

Lemma sessionInv_recordClick tileId s : sessionInv s → sessionInv (recordClick tileId s).
Proof.
  unfold sessionInv.
  destruct (recordClick_frame tileId s) as (_ & _ & _ & _ & -> & -> & ->).
  destruct (scoring_of_recordClick tileId s) as [-> _].
  intros (? & ? & ? & ? & ?). split_and!; try done.
  destruct (isInCombo s && _); [lia|]. case_bool_decide; lia.
Qed.

Lemma boardInv_recordClick tileId s : boardInv s → boardInv (recordClick tileId s).
Proof.
  unfold boardInv, gridInvariant.
  destruct (recordClick_frame tileId s) as (-> & -> & -> & -> & _ & -> & ->).
  rewrite ids_select, length_fmap.
  intros (Hids & Hlen & Hphase & Hgrid & Hnd & Hsel & Hout).
  split_and!; try done.
  - intros x (y & -> & Hy)%list_elem_of_fmap.
    rewrite selected_select, id_select, elem_of_app, list_elem_of_singleton.
    by rewrite (Hsel y Hy).
  - intros Hin. apply Forall_fmap. eapply Forall_impl; [exact (Hout Hin)|].
    intros x. apply noOutcome_select.
Qed.

Lemma sessionInv_checkRound rand s : sessionInv s → sessionInv (checkRound rand s).
Proof.
  intros (Hl & Hsc & Hg & Hn & Hhalf). destruct (correctSelections s) eqn:Hc.
  - rewrite (checkRound_correct_freshRound _ _ Hc).
    unfold sessionInv, freshRound. cbn.
    destruct (exceedsHalf _ _) eqn:Hh.
    + split_and!; [lia..|nia].
    + assert (¬ gridSize s * gridSize s < 2 * (numTilesToLight s + 1)) as Hno.
      { rewrite <- exceedsHalf_Z. by rewrite Hh. }
      split_and!; lia.
  - rewrite (checkRound_when_incorrect _ _ Hc). by unfold sessionInv.
Qed.

Lemma boardInv_checkRound rand s :
  sessionInv s → gameState s ≠ Phase.idle → boardInv s → boardInv (checkRound rand s).
Proof.
  intros Hsession Hphase Hboard.
  destruct (correctSelections s) eqn:Hc.
  - pose proof (sessionInv_checkRound rand s Hsession) as Hs'.
    rewrite (checkRound_correct_freshRound _ _ Hc) in *.
    destruct Hs' as (_ & _ & Hg & Hn & Hhalf). cbn in Hg, Hn, Hhalf.
    apply boardInv_freshRound; [exact Hg| |exact Hhalf].
    destruct Hsession as (? & _). lia.
  - rewrite (checkRound_when_incorrect _ _ Hc).
    destruct Hboard as (Hids & Hlen & _ & Hgrid & Hnd & Hsel & _).
    unfold boardInv, gridInvariant. cbn. rewrite ids_markOutcome, length_fmap.
    split_and!; try done.
    + intros _. exact (Hgrid Hphase).
    + intros x (y & -> & Hy)%list_elem_of_fmap. cbn. by apply Hsel.
    + by intros [|].
Qed.

Lemma roundInv_checkRound rand s :
  NoDup (playerInput s) →
  length (playerInput s) = length (sequence s) →
  roundInv (checkRound rand s).
Proof.
  intros Hnd Hfull. destruct (correctSelections s) eqn:Hc.
  - rewrite (checkRound_correct_freshRound _ _ Hc). apply roundInv_freshRound.
  - rewrite (checkRound_when_incorrect _ _ Hc). unfold roundInv. cbn.
    split_and!; try done; [lia|]. intros _. split_and!; try done.
    + by apply correctSelections_false.
    + apply Forall_fmap, Forall_forall. by intros x _.
Qed.

Lemma prefix_snoc (l k : list Z) x :
  l ++ [x] `prefix_of` k ↔ l `prefix_of` k ∧ k !! length l = Some x.
Proof.
  split.
  - intros [r ->]. rewrite <- app_assoc. cbn. split.
    + by exists (x :: r).
    + by apply list_lookup_middle.
  - intros [[r ->] Hx]. destruct r as [|y r].
    + rewrite app_nil_r in Hx. apply lookup_lt_Some in Hx. lia.
    + rewrite list_lookup_middle in Hx by done. injection Hx as ->.
      exists r. by rewrite <- app_assoc.
Qed.

Lemma roundInv_recordClick tileId s :
  gameState s = Phase.input →
  tileId ∉ playerInput s →
  length (playerInput s ++ [tileId]) ≠ length (sequence s) →
  roundInv s → roundInv (recordClick tileId s).
Proof.
  intros Hphase Hnew Hopen (Hnd & Hle & _ & Hin & _).
  destruct (Hin Hphase) as [Hlt Hcombo].
  rewrite length_app in Hopen. cbn in Hopen.
  unfold roundInv.
  destruct (scoring_of_recordClick tileId s) as [_ ->].
  destruct (recordClick_frame tileId s) as (-> & _ & -> & -> & _).
  rewrite length_app. cbn [length]. split_and!.
  - apply NoDup_app. split_and!; [done| |apply NoDup_singleton].
    intros x Hx ->%list_elem_of_singleton. by apply Hnew.
  - lia.
  - intros Hseq. by rewrite Hphase in Hseq.
  - intros _. split; [lia|].
    rewrite prefix_snoc, andb_true_iff, bool_decide_eq_true. by rewrite Hcombo.
  - intros Hover. by rewrite Hphase in Hover.
Qed.

(** Every command keeps the three invariants together. *)
Lemma wellFormed_exec c s :
  sessionInv s ∧ boardInv s ∧ roundInv s →
  sessionInv (exec c s) ∧ boardInv (exec c s) ∧ roundInv (exec c s).
Proof.
  intros (Hsession & Hboard & Hround).
  destruct c as [rand| | |rand tileId]; cbn [exec].
  - rewrite startGame_freshRound. split_and!.
    + unfold sessionInv. cbn. lia.
    + apply boardInv_freshRound; lia.
    + apply roundInv_freshRound.
  - split_and!.
    + unfold sessionInv. cbn. lia.
    + destruct Hboard as (Hids & Hlen & _ & _ & Hnd & Hsel & _).
      unfold boardInv. cbn. split_and!; try done. by intros [|].
    + destruct Hround as (Hnd & Hle & _). unfold roundInv. cbn.
      split_and!; done.
  - unfold beginInput. case_bool_decide as Hseq; [|done].
    destruct Hboard as (Hids & Hlen & Hck & Hgrid & Hnd & Hsel & Hout).
    destruct Hround as (Hndpi & Hle & Hstart & _).
    destruct (Hstart Hseq) as [Hpi Hcombo].
    destruct Hgrid as [Hgrid Hsq]; [by rewrite Hseq|].
    split_and!; [done| |].
    + unfold boardInv, gridInvariant. cbn. split_and!; try done.
      intros _. apply Hout. by left.
    + unfold roundInv. cbn. rewrite Hpi, Hcombo. split_and!; try done.
      * apply NoDup_nil_2.
      * cbn. lia.
      * intros _. split; [|split; [intros _; apply prefix_nil|done]].
        destruct Hsession as (? & _ & _ & ? & _). cbn. lia.
  - destruct (handlePlayerTileClick_outcome rand tileId s)
      as [Hign|Hphase Hnew Hopen|Hphase Hnew Hfull]; [done| |].
    + split_and!.
      * by apply sessionInv_recordClick.
      * by apply boardInv_recordClick.
      * by apply roundInv_recordClick.
    + destruct (recordClick_frame tileId s) as (Hpi & _ & Hsq & Hgs & _).
      split_and!.
      * by apply sessionInv_checkRound, sessionInv_recordClick.
      * apply boardInv_checkRound.
        -- by apply sessionInv_recordClick.
        -- by rewrite Hgs, Hphase.
        -- by apply boardInv_recordClick.
      * apply roundInv_checkRound; rewrite Hpi, ?Hsq; [|done].
        destruct Hround as (Hnd & _).
        apply NoDup_app. split_and!; [done| |apply NoDup_singleton].
        intros x Hx ->%list_elem_of_singleton. by apply Hnew.
Qed.

Lemma wellFormed_constructor :
  sessionInv constructor ∧ boardInv constructor ∧ roundInv constructor.
Proof.
  split_and!.
  - unfold sessionInv. cbn. lia.
  - unfold boardInv, gridInvariant.
    change (tiles constructor) with (Tile.fresh <$> seqZ 0 9).
    change (gameState constructor) with Phase.idle.
    change (sequence constructor) with (@nil Z).
    change (playerInput constructor) with (@nil Z).
    rewrite ids_fresh, length_fmap, length_seqZ. split_and!; try done.
    + apply NoDup_nil_2.
    + intros x (i & -> & _)%list_elem_of_fmap. cbn. split; [done|].
      by intros ?%elem_of_nil.
    + by intros [|].
  - unfold roundInv.
    change (gameState constructor) with Phase.idle.
    change (sequence constructor) with (@nil Z).
    change (playerInput constructor) with (@nil Z).
    split_and!; try done. apply NoDup_nil_2.
Qed.

Lemma reachable_wellFormed s :
  reachable s → sessionInv s ∧ boardInv s ∧ roundInv s.
Proof.
  induction 1 as [|c s _ IH]; [exact wellFormed_constructor|].
  by apply wellFormed_exec.
Qed.

(** ** What holds in every reachable state *)

(** X7. In every reachable state the session fields are within their
    bounds and tied together: level at least 1, score at least 0, grid
    size at least 3, [numTilesToLight] two more than the level, and
    never more than half of the square of the grid size. *)
Theorem reachable_session_bounds (s : GameService) :
  reachable s →
  1 ≤ currentLevel s
  ∧ 0 ≤ score s
  ∧ 3 ≤ gridSize s
  ∧ numTilesToLight s = currentLevel s + 2
  ∧ 2 * numTilesToLight s ≤ gridSize s * gridSize s.
Proof.
  intros Hreach. destruct (reachable_wellFormed s Hreach) as (Hsession & _).
  exact Hsession.
Qed.

Lemma reachable_session_bounds_witness :
  numTilesToLight (run winTwice constructor)
  = currentLevel (run winTwice constructor) + 2.
Proof.
  destruct (reachable_session_bounds (run winTwice constructor)) as (_ & _ & _ & Hn & _).
  - exact (reachable_run winTwice constructor reachable_constructor).
  - exact Hn.
Defined.

(** X8. In every reachable state the id of a tile is its index in
    [tiles], there are at least nine tiles, and the phase is not
    [checking], which no command leaves behind.  Outside phase [idle]
    the number of tiles is the square of the grid size. *)
Theorem reachable_board (s : GameService) :
  reachable s →
  (∀ i x, tiles s !! i = Some x → Tile.id x = Z.of_nat i)
  ∧ NoDup (Tile.id <$> tiles s)
  ∧ (9 ≤ length (tiles s))%nat
  ∧ gameState s ≠ Phase.checking
  ∧ (gameState s ≠ Phase.idle →
       Z.of_nat (length (tiles s)) = gridSize s * gridSize s).
Proof.
  intros Hreach.
  destruct (reachable_wellFormed s Hreach)
    as (_ & (Hids & Hlen & Hck & Hgrid & _) & _).
  split_and!; try done.
  - intros i x Hx.
    assert ((Tile.id <$> tiles s) !! i = Some (Tile.id x)) as Hi
      by by rewrite list_lookup_fmap, Hx.
    rewrite Hids in Hi. apply lookup_seqZ in Hi. lia.
  - rewrite Hids. apply NoDup_seqZ.
  - intros Hphase. by destruct (Hgrid Hphase).
Qed.

Lemma reachable_board_witness :
  Z.of_nat (length (tiles (run winTwice constructor)))
  = gridSize (run winTwice constructor) * gridSize (run winTwice constructor).
Proof.
  destruct (reachable_board (run winTwice constructor)) as (_ & _ & _ & _ & Hgrid).
  - exact (reachable_run winTwice constructor reachable_constructor).
  - apply Hgrid. vm_compute. discriminate.
Defined.

(** X9. In every reachable state the sequence that [getSequence]
    returns has no duplicates and only holds indexes of tiles.  Outside
    phase [idle] its length is [numTilesToLight], which is at most half
    the number of tiles: the early exit of the generation loop is never
    taken in a game. *)
Theorem reachable_sequence (s : GameService) :
  reachable s →
  NoDup (getSequence s)
  ∧ (∀ x, x ∈ getSequence s → 0 ≤ x < Z.of_nat (length (tiles s)))
  ∧ (gameState s ≠ Phase.idle →
       Z.of_nat (length (getSequence s)) = numTilesToLight s
       ∧ (2 * length (getSequence s) ≤ length (tiles s))%nat).
Proof.
  intros Hreach. unfold getSequence.
  destruct (reachable_wellFormed s Hreach)
    as ((_ & _ & _ & _ & Hhalf) & (Hids & _ & _ & Hgrid & Hnd & _) & _).
  split_and!; [done| |].
  - intros x Hx. apply (reachable_sequenceOnGrid s Hreach) in Hx.
    rewrite Hids in Hx. apply elem_of_seqZ in Hx. lia.
  - intros Hphase. destruct (Hgrid Hphase) as [Hg Hlen].
    unfold gridInvariant in Hg. split; [done|]. lia.
Qed.

Lemma reachable_sequence_witness :
  NoDup (getSequence (run winTwice constructor)).
Proof.
  destruct (reachable_sequence (run winTwice constructor)) as (Hnd & _).
  - exact (reachable_run winTwice constructor reachable_constructor).
  - exact Hnd.
Defined.

(** X10. In every reachable state the input of the player has no
    duplicates and is no longer than the sequence; it is empty in phase
    [sequence] and strictly shorter than the sequence in phase [input],
    so that an accepted click never overshoots the length test of the
    handler. *)
Theorem reachable_playerInput (s : GameService) :
  reachable s →
  NoDup (playerInput s)
  ∧ (length (playerInput s) ≤ length (sequence s))%nat
  ∧ (gameState s = Phase.sequence → playerInput s = [])
  ∧ (gameState s = Phase.input →
       (length (playerInput s) < length (sequence s))%nat).
Proof.
  intros Hreach.
  destruct (reachable_wellFormed s Hreach) as (_ & _ & (Hnd & Hle & Hseq & Hin & _)).
  split_and!; [done|done| |].
  - intros Hphase. by destruct (Hseq Hphase).
  - intros Hphase. by destruct (Hin Hphase).
Qed.

Lemma reachable_playerInput_witness :
  let s := run (clicks firstLeft [2; 8]) (firstRound draws258) in
  (length (playerInput s) < length (sequence s))%nat.
Proof.
  cbn zeta.
  destruct (reachable_playerInput (run (clicks firstLeft [2; 8]) (firstRound draws258)))
    as (_ & _ & _ & Hlt).
  - exact (reachable_run _ _ (reachable_run _ _ reachable_constructor)).
  - apply Hlt. vm_compute. reflexivity.
Defined.

(** X11. In every reachable state a tile is marked [selectedByPlayer]
    exactly when its id is in the input of the player. *)
Theorem reachable_selected (s : GameService) (x : Tile.t) :
  reachable s →
  x ∈ tiles s →
  Tile.selectedByPlayer x = true ↔ Tile.id x ∈ playerInput s.
Proof.
  intros Hreach.
  destruct (reachable_wellFormed s Hreach) as (_ & (_ & _ & _ & _ & _ & Hsel & _) & _).
  apply Hsel.
Qed.

Lemma reachable_selected_witness :
  Tile.selectedByPlayer (Tile.mk 8 false true false false false) = true
  ↔ 8 ∈ playerInput (run (clicks firstLeft [2; 8]) (firstRound draws258)).
Proof.
  apply (reachable_selected (run (clicks firstLeft [2; 8]) (firstRound draws258))
           (Tile.mk 8 false true false false false)).
  - exact (reachable_run _ _ (reachable_run _ _ reachable_constructor)).
  - apply (bool_decide_unpack _). vm_compute. exact I.
Defined.

(** X12. In every reachable state the outcome flags tell the phase
    apart: in phases [sequence] and [input] no tile has an outcome flag
    set; in phase [over] the input is as long as the sequence without
    being equal to it as a set, the combo is off, and on every tile the
    three flags are the membership tests of its id in the sequence and
    in the input. *)
Theorem reachable_outcome_flags (s : GameService) :
  reachable s →
  (gameState s = Phase.sequence ∨ gameState s = Phase.input →
     Forall noOutcome (tiles s))
  ∧ (gameState s = Phase.over →
       length (playerInput s) = length (sequence s)
       ∧ ¬ equalAsSets (playerInput s) (sequence s)
       ∧ isInCombo s = false
       ∧ ∀ x, x ∈ tiles s →
           (Tile.isCorrectAndClicked x = true
              ↔ Tile.id x ∈ sequence s ∧ Tile.id x ∈ playerInput s)
           ∧ (Tile.isCorrectAndNotClicked x = true
              ↔ Tile.id x ∈ sequence s ∧ Tile.id x ∉ playerInput s)
           ∧ (Tile.isIncorrectAndClicked x = true
              ↔ (Tile.id x ∉ sequence s) ∧ Tile.id x ∈ playerInput s)).
Proof.
  intros Hreach.
  destruct (reachable_wellFormed s Hreach)
    as (_ & (_ & _ & _ & _ & _ & _ & Hout) & (_ & _ & _ & _ & Hover)).
  split; [exact Hout|]. intros Hphase.
  destruct (Hover Hphase) as (Hfull & Hne & Hcombo & Hshow).
  split_and!; try done. intros x Hx.
  rewrite Forall_forall in Hshow. destruct (Hshow x Hx) as (-> & -> & ->).
  unfold includes.
  rewrite !andb_true_iff, !negb_true_iff, !bool_decide_eq_true, !bool_decide_eq_false.
  done.
Qed.

Lemma reachable_outcome_flags_witness :
  Forall noOutcome (tiles (run (clicks firstLeft [2; 8]) (firstRound draws258))).
Proof.
  destruct (reachable_outcome_flags (run (clicks firstLeft [2; 8]) (firstRound draws258)))
    as (Hout & _).
  - exact (reachable_run _ _ (reachable_run _ _ reachable_constructor)).
  - apply Hout. right. vm_compute. reflexivity.
Defined.

(** X13. In every reachable state in phase [input] the combo is on
    exactly when the clicks so far are the beginning of the sequence,
    in order; in phase [sequence] it is on. *)
Theorem reachable_combo_prefix (s : GameService) :
  reachable s →
  (gameState s = Phase.sequence → isInCombo s = true)
  ∧ (gameState s = Phase.input →
       isInCombo s = true ↔ playerInput s `prefix_of` sequence s).
Proof.
  intros Hreach.
  destruct (reachable_wellFormed s Hreach) as (_ & _ & (_ & _ & Hseq & Hin & _)).
  split.
  - intros Hphase. by destruct (Hseq Hphase).
  - intros Hphase. by destruct (Hin Hphase).
Qed.

Lemma reachable_combo_prefix_witness :
  isInCombo (run (clicks firstLeft [2; 8]) (firstRound draws258)) = true
  ↔ playerInput (run (clicks firstLeft [2; 8]) (firstRound draws258))
      `prefix_of` sequence (run (clicks firstLeft [2; 8]) (firstRound draws258)).
Proof.
  destruct (reachable_combo_prefix (run (clicks firstLeft [2; 8]) (firstRound draws258)))
    as (_ & Hin).
  - exact (reachable_run _ _ (reachable_run _ _ reachable_constructor)).
  - apply Hin. vm_compute. reflexivity.
Defined.

(** ** Whole rounds *)

Lemma run_cons c cs s : run (c :: cs) s = run cs (exec c s).
Proof. reflexivity. Qed.

Lemma run_clicks_cons rand t ids s :
  run (clicks rand (t :: ids)) s = run (clicks rand ids) (handlePlayerTileClick rand t s).
Proof. reflexivity. Qed.

Lemma run_clicks_nil rand s : run (clicks rand []) s = s.
Proof. reflexivity. Qed.

(** An accepted click on a tile of the sequence scores 1 or 2. *)
Lemma score_recordClick_member tileId s :
  tileId ∈ sequence s →
  score s + 1 ≤ score (recordClick tileId s) ≤ score s + 2.
Proof.
  intros Hin. destruct (scoring_of_recordClick tileId s) as [-> _].
  rewrite (bool_decide_true _ Hin). destruct (isInCombo s && _); lia.
Qed.

(** Round evaluation on an input that is a rearrangement of the
    sequence. *)
Lemma checkRound_rearranged rand s :
  playerInput s ≡ₚ sequence s →
  currentLevel (checkRound rand s) = currentLevel s + 1
  ∧ numTilesToLight (checkRound rand s) = numTilesToLight s + 1
  ∧ gameState (checkRound rand s) = Phase.sequence
  ∧ score (checkRound rand s) = score s.
Proof.
  intros Hperm.
  assert (correctSelections s = true) as Hc.
  { apply correctSelections_iff. split; [by rewrite Hperm|].
    intros x. by rewrite Hperm. }
  by rewrite (checkRound_correct_freshRound _ _ Hc).
Qed.

Lemma clicks_any_order rand : ∀ (rest : list Z) (s : GameService),
  gameState s = Phase.input →
  NoDup (playerInput s ++ rest) →
  playerInput s ++ rest ≡ₚ sequence s →
  rest ≠ [] →
  let s' := run (clicks rand rest) s in
  currentLevel s' = currentLevel s + 1
  ∧ numTilesToLight s' = numTilesToLight s + 1
  ∧ gameState s' = Phase.sequence
  ∧ score s + Z.of_nat (length rest) ≤ score s' ≤ score s + 2 * Z.of_nat (length rest).
Proof.
  induction rest as [|t rest IH]; intros s Hphase Hnd Hperm Hne; [done|].
  cbn zeta. rewrite run_clicks_cons.
  assert (t ∉ playerInput s) as Hnew.
  { apply NoDup_app in Hnd as (_ & Hdisj & _). intros Hin.
    apply (Hdisj t Hin). by left. }
  assert (t ∈ sequence s) as Hmem.
  { rewrite <- Hperm. apply elem_of_app. right. by left. }
  rewrite (handlePlayerTileClick_accepted _ _ _ Hphase Hnew).
  destruct (recordClick_frame t s) as (Hpi & _ & Hsq & Hgs & Hl & _ & Hn).
  pose proof (score_recordClick_member t s Hmem) as Hscore.
  assert (length (sequence s) = (length (playerInput s) + S (length rest))%nat) as Hlen
    by (rewrite <- Hperm, length_app; cbn; lia).
  rewrite Hpi, Hsq, length_app. cbn [length].
  destruct rest as [|t' rest'].
  - rewrite bool_decide_true by (cbn in Hlen; lia).
    rewrite run_clicks_nil.
    destruct (checkRound_rearranged rand (recordClick t s)) as (-> & -> & -> & ->).
    { by rewrite Hpi, Hsq. }
    rewrite Hl, Hn. cbn [length]. split_and!; (done || lia).
  - rewrite bool_decide_false by (cbn in Hlen; lia).
    destruct (IH (recordClick t s)) as (-> & -> & -> & Hrest).
    + by rewrite Hgs.
    + rewrite Hpi, <- app_assoc. exact Hnd.
    + rewrite Hpi, Hsq, <- app_assoc. exact Hperm.
    + done.
    + rewrite Hl, Hn. split_and!; try done; cbn [length] in *; lia.
Qed.

Lemma clicks_in_order rand : ∀ (rest : list Z) (s : GameService),
  gameState s = Phase.input →
  isInCombo s = true →
  NoDup (sequence s) →
  sequence s = playerInput s ++ rest →
  rest ≠ [] →
  score (run (clicks rand rest) s) = score s + 2 * Z.of_nat (length rest).
Proof.
  induction rest as [|t rest IH]; intros s Hphase Hcombo Hnd Hsplit Hne; [done|].
  rewrite run_clicks_cons.
  assert (t ∉ playerInput s) as Hnew.
  { rewrite Hsplit in Hnd. apply NoDup_app in Hnd as (_ & Hdisj & _). intros Hin.
    apply (Hdisj t Hin). by left. }
  assert (sequence s !! length (playerInput s) = Some t) as Hat
    by (rewrite Hsplit; by apply list_lookup_middle).
  rewrite (handlePlayerTileClick_accepted _ _ _ Hphase Hnew).
  destruct (recordClick_frame t s) as (Hpi & _ & Hsq & Hgs & _).
  destruct (scoring_of_recordClick t s) as [Hscore Hhit].
  rewrite Hcombo, (bool_decide_true _ Hat) in Hscore, Hhit. cbn in Hscore, Hhit.
  rewrite Hpi, Hsq, length_app. cbn [length].
  assert (length (sequence s) = (length (playerInput s) + S (length rest))%nat) as Hlen
    by (rewrite Hsplit at 1; rewrite length_app; cbn; lia).
  destruct rest as [|t' rest'].
  - rewrite bool_decide_true by (cbn in Hlen; lia).
    rewrite run_clicks_nil, score_checkRound. cbn [length]. lia.
  - rewrite bool_decide_false by (cbn in Hlen; lia).
    rewrite (IH (recordClick t s)); try done.
    + rewrite Hscore. cbn [length]. lia.
    + by rewrite Hgs.
    + by rewrite Hsq.
    + rewrite Hsq, Hpi, <- app_assoc. exact Hsplit.
Qed.

(** X14. In a reachable state in phase [input], clicking the tiles that
    are still missing from the input, in any order, wins the round: the
    level and [numTilesToLight] grow by one, the phase is [sequence],
    and every one of these clicks has scored 1 or 2. *)
Theorem any_order_wins (rand : Random) (rest : list Z) (s : GameService) :
  reachable s →
  gameState s = Phase.input →
  playerInput s ++ rest ≡ₚ sequence s →
  let s' := run (clicks rand rest) s in
  currentLevel s' = currentLevel s + 1
  ∧ numTilesToLight s' = numTilesToLight s + 1
  ∧ gameState s' = Phase.sequence
  ∧ score s + Z.of_nat (length rest) ≤ score s' ≤ score s + 2 * Z.of_nat (length rest).
Proof.
  intros Hreach Hphase Hperm.
  destruct (reachable_wellFormed s Hreach)
    as (_ & (_ & _ & _ & _ & Hnd & _) & (_ & _ & _ & Hin & _)).
  destruct (Hin Hphase) as [Hlt _].
  apply clicks_any_order; [done| |done|].
  - by rewrite Hperm.
  - intros ->. rewrite app_nil_r in Hperm. rewrite Hperm in Hlt. lia.
Qed.

Lemma any_order_wins_witness :
  let s := run (clicks firstLeft [8]) (firstRound draws258) in
  currentLevel (run (clicks firstLeft [5; 2]) s) = currentLevel s + 1.
Proof.
  cbn zeta.
  destruct (any_order_wins firstLeft [5; 2]
              (run (clicks firstLeft [8]) (firstRound draws258)))
    as (Hlevel & _).
  - exact (reachable_run _ _ (reachable_run _ _ reachable_constructor)).
  - vm_compute. reflexivity.
  - apply (bool_decide_unpack _). vm_compute. exact I.
  - exact Hlevel.
Defined.

(** X15. In a reachable state at the start of phase [input] (nothing
    clicked yet), clicking the sequence in its own order scores exactly
    2 for every click. *)
Theorem in_order_scores_double (rand : Random) (s : GameService) :
  reachable s →
  gameState s = Phase.input →
  playerInput s = [] →
  score (run (clicks rand (getSequence s)) s)
  = score s + 2 * Z.of_nat (length (getSequence s)).
Proof.
  intros Hreach Hphase Hpi. unfold getSequence.
  destruct (reachable_wellFormed s Hreach)
    as (_ & (_ & _ & _ & _ & Hnd & _) & (_ & _ & _ & Hin & _)).
  destruct (Hin Hphase) as [Hlt Hcombo].
  apply clicks_in_order; try done.
  - apply Hcombo. rewrite Hpi. apply prefix_nil.
  - by rewrite Hpi.
  - intros Hnil. rewrite Hnil in Hlt. cbn in Hlt. lia.
Qed.

Lemma in_order_scores_double_witness :
  score (run (clicks firstLeft (getSequence (firstRound draws258))) (firstRound draws258))
  = score (firstRound draws258)
    + 2 * Z.of_nat (length (getSequence (firstRound draws258))).
Proof.
  apply in_order_scores_double.
  - exact (reachable_run _ _ reachable_constructor).
  - vm_compute. reflexivity.
  - vm_compute. reflexivity.
Defined.

(** X16. Once an id that is not in the sequence is in the input, the
    round is lost whatever is clicked next: through any run of clicks
    and phase flips the level and the sequence stay as they are and the
    phase is [input] or [over], never [sequence]. *)
Theorem wrong_click_loses (cs : list Command) (x : Z) (s : GameService) :
  gameState s = Phase.input →
  x ∈ playerInput s →
  x ∉ sequence s →
  Forall isClickOrFlip cs →
  let s' := run cs s in
  currentLevel s' = currentLevel s
  ∧ sequence s' = sequence s
  ∧ x ∈ playerInput s'
  ∧ (gameState s' = Phase.input ∨ gameState s' = Phase.over).
Proof.
  intros Hphase Hin Hout Hcs. revert s Hphase Hin Hout.
  induction Hcs as [|c cs Hc Hcs IH]; intros s Hphase Hin Hout; [by auto|].
  cbn zeta. rewrite run_cons.
  assert (currentLevel (exec c s) = currentLevel s
          ∧ sequence (exec c s) = sequence s
          ∧ x ∈ playerInput (exec c s)
          ∧ (gameState (exec c s) = Phase.input ∨ gameState (exec c s) = Phase.over))
    as (Hl & Hsq & Hin' & Hphase').
  { destruct c as [rand| | |rand tileId]; try done; cbn [exec].
    - unfold beginInput. rewrite bool_decide_false by by rewrite Hphase. by auto.
    - destruct (handlePlayerTileClick_outcome rand tileId s)
        as [Hign|_ Hnew Hopen|_ Hnew Hfull]; [by auto| |].
      + destruct (recordClick_frame tileId s) as (-> & _ & -> & -> & -> & _).
        split_and!; try done; [|by left]. apply elem_of_app. by left.
      + destruct (recordClick_frame tileId s) as (Hpi & _ & Hsq & _ & Hl & _).
        assert (correctSelections (recordClick tileId s) = false) as Hc'.
        { apply correctSelections_false. rewrite Hpi, Hsq. intros [_ Hsame].
          apply Hout, Hsame, elem_of_app. by left. }
        rewrite (checkRound_when_incorrect _ _ Hc'). cbn. rewrite Hpi, Hsq, Hl.
        split_and!; try done; [|by right]. apply elem_of_app. by left. }
  destruct Hphase' as [Hphase'|Hover].
  - destruct (IH (exec c s)) as (-> & -> & ? & ?); [done|done|by rewrite Hsq|].
    by rewrite Hl, Hsq.
  - rewrite (dead_phase_steady cs (exec c s)); [by auto|by auto|exact Hcs].
Qed.

Lemma wrong_click_loses_witness :
  let s := run (clicks firstLeft [2; 9]) (firstRound draws258) in
  let s' := run (clicks firstLeft [5; 8]) s in
  currentLevel s' = currentLevel s
  ∧ (gameState s' = Phase.input ∨ gameState s' = Phase.over).
Proof.
  cbn zeta.
  destruct (wrong_click_loses (clicks firstLeft [5; 8]) 9
              (run (clicks firstLeft [2; 9]) (firstRound draws258)))
    as (Hl & _ & _ & Hphase).
  - vm_compute. reflexivity.
  - apply (bool_decide_unpack _). vm_compute. exact I.
  - apply (bool_decide_unpack _). vm_compute. exact I.
  - repeat constructor.
  - split; [exact Hl|exact Hphase].
Defined.

(** X17. A click raises the level exactly when it is accepted and
    completes a round that succeeds, and then by one; no click lowers
    the level or the grid size, and the grid size grows by at most
    one, only together with the level. *)
Theorem click_levels_up_iff (rand : Random) (tileId : Z) (s : GameService) :
  let s' := handlePlayerTileClick rand tileId s in
  (currentLevel s' = currentLevel s + 1 ↔ roundSucceeds tileId s)
  ∧ (¬ roundSucceeds tileId s → currentLevel s' = currentLevel s)
  ∧ gridSize s ≤ gridSize s' ≤ gridSize s + 1
  ∧ (gridSize s' = gridSize s + 1 →
       roundSucceeds tileId s
       ∧ gridSize s * gridSize s < 2 * (numTilesToLight s + 1)).
Proof.
  intros s'. subst s'.
  destruct (recordClick_frame tileId s) as (Hpi & _ & Hsq & _ & Hl & Hg & Hn).
  destruct (handlePlayerTileClick_outcome rand tileId s)
    as [Hign|Hphase Hnew Hopen|Hphase Hnew Hfull].
  - assert (¬ roundSucceeds tileId s) as Hno
      by (intros (? & ? & _); by destruct Hign).
    split_and!; try done; try lia. split; [lia|done].
  - assert (¬ roundSucceeds tileId s) as Hno by by intros (_ & _ & ? & _).
    rewrite Hl, Hg. split_and!; try done; try lia. split; [lia|done].
  - destruct (correctSelections (recordClick tileId s)) eqn:Hc.
    + assert (roundSucceeds tileId s) as Hyes.
      { apply correctSelections_iff in Hc. rewrite Hpi, Hsq in Hc. by split_and!. }
      rewrite (checkRound_correct_freshRound _ _ Hc). cbn. rewrite Hl, Hg, Hn.
      destruct (exceedsHalf _ _) eqn:Hh.
      * apply exceedsHalf_Z in Hh. split_and!; try done; lia.
      * split_and!; try done; lia.
    + assert (¬ roundSucceeds tileId s) as Hno.
      { intros (_ & _ & Heq). apply correctSelections_false in Hc.
        apply Hc. by rewrite Hpi, Hsq. }
      rewrite (checkRound_when_incorrect _ _ Hc). cbn. rewrite Hl, Hg.
      split_and!; try done; try lia. split; [lia|done].
Qed.

Lemma click_levels_up_iff_witness :
  let s := run (clicks firstLeft [2; 8]) (firstRound draws258) in
  currentLevel (handlePlayerTileClick firstLeft 9 s) = currentLevel s.
Proof.
  cbn zeta.
  destruct (click_levels_up_iff firstLeft 9
              (run (clicks firstLeft [2; 8]) (firstRound draws258)))
    as (_ & Hsame & _).
  apply Hsame. intros (_ & _ & _ & Hsame').
  assert (9 ∉ sequence (run (clicks firstLeft [2; 8]) (firstRound draws258))) as Hout
    by (apply (bool_decide_unpack _); vm_compute; exact I).
  apply Hout, Hsame', elem_of_app. right. by left.
Defined.

(** X18. Clicks and phase flips never lower the score, and a run of
    them raises it by at most 2 for each command. *)
Theorem score_run_bounds (cs : list Command) (s : GameService) :
  Forall isClickOrFlip cs →
  score s ≤ score (run cs s) ≤ score s + 2 * Z.of_nat (length cs).
Proof.
  intros Hcs. revert s. induction Hcs as [|c cs Hc _ IH]; intros s.
  - cbn. lia.
  - rewrite run_cons. specialize (IH (exec c s)).
    assert (score s ≤ score (exec c s) ≤ score s + 2) as Hstep.
    { destruct c as [rand| | |rand tileId]; try done; cbn [exec].
      - unfold beginInput. case_bool_decide; cbn; lia.
      - apply score_handlePlayerTileClick. }
    cbn [length]. lia.
Qed.

Lemma score_run_bounds_witness :
  let s := firstRound draws258 in
  score s ≤ score (run (clicks firstLeft [2; 8; 5]) s)
  ≤ score s + 2 * Z.of_nat (length (clicks firstLeft [2; 8; 5])).
Proof.
  apply (score_run_bounds (clicks firstLeft [2; 8; 5]) (firstRound draws258)).
  repeat constructor.
Defined.

(** ** Which sequences can be drawn *)

(** The loop can be steered: for every list of available ids, none
    taken more often than it is available, there are draws under which
    the loop appends exactly that list. *)
Lemma generateLoop_reaches : ∀ (target avail : list Z) (k : nat) (acc : list Z),
  target ⊆+ avail →
  ∃ rand : Random, ∀ rand' : Random,
    (∀ j, (k ≤ j)%nat → rand' j = rand j) →
    generateLoop (length target) rand' k avail acc = acc ++ target.
Proof.
  induction target as [|x target IH]; intros avail k acc Hsub.
  - exists firstLeft. intros rand' _. cbn. by rewrite app_nil_r.
  - assert (x ∈ avail) as Hx by (eapply elem_of_submseteq; [by left|exact Hsub]).
    apply list_elem_of_lookup_1 in Hx as [i Hi].
    assert (target ⊆+ delete i avail) as Hrest.
    { rewrite (delete_Permutation avail i x Hi) in Hsub.
      by apply (submseteq_app_inv_l _ _ [x]). }
    destruct (IH (delete i avail) (S k) (acc ++ [x]) Hrest) as [rand0 Hrand0].
    exists (λ j, if decide (j = k) then i else rand0 j).
    intros rand' Hagree. cbn [length generateLoop].
    pose proof (lookup_lt_Some _ _ _ Hi) as Hlt.
    rewrite bool_decide_false by lia.
    assert (randomIndex rand' k (length avail) = i) as ->.
    { unfold randomIndex. rewrite (Hagree k) by lia.
      rewrite decide_True by done. by apply Nat.mod_small. }
    rewrite Hi, Hrand0; [by rewrite <- app_assoc|].
    intros j Hj. rewrite (Hagree j) by lia. by rewrite decide_False by lia.
Qed.

(** X19. The draws decide the sequence and nothing else does: every
    list of [numTilesToLight] pairwise distinct tile ids, in any order,
    is the sequence that [#generateSequence] leaves under some
    draws. *)
Theorem every_selection_can_be_drawn (target : list Z) (s : GameService) :
  NoDup target →
  (∀ x, x ∈ target → x ∈ Tile.id <$> tiles s) →
  Z.of_nat (length target) = numTilesToLight s →
  ∃ rand, getSequence (generateSequence rand s) = target.
Proof.
  intros Hnd Hon Hlen.
  destruct (generateLoop_reaches target (Tile.id <$> tiles s) 0 [])
    as [rand Hrand]; [by apply NoDup_submseteq|].
  exists rand. unfold getSequence. rewrite sequence_generateSequence.
  replace (Z.to_nat (numTilesToLight s)) with (length target) by lia.
  by rewrite Hrand.
Qed.

Lemma every_selection_can_be_drawn_witness :
  ∃ rand, getSequence (generateSequence rand constructor) = [7; 0; 4].
Proof.
  apply every_selection_can_be_drawn.
  - apply (bool_decide_unpack _). vm_compute. exact I.
  - intros x Hx. change (Tile.id <$> tiles constructor) with (seqZ 0 9).
    apply elem_of_seqZ. rewrite !elem_of_cons, elem_of_nil in Hx.
    destruct Hx as [-> | [-> | [-> | []]]]; lia.
  - reflexivity.
Defined.

(** ** The phase machine *)

